(** * voodio: ingestion and lifecycle pipeline of [main.go]

    A shallow embedding of [src/main.go]: the working-directory paths, the
    start-up routine [init], the catalog writer ([saveMovies], [saveSubs]),
    the duplicate-directory pass, the set-up part of [main] and the
    shutdown protocol between [main] and its signal watcher.

    Library calls of the Go program (path/filepath, os, gorm, net/http) are
    modelled by what they do on a Unix system; what the outside world
    decides (which calls fail, what a directory scan finds, what the title
    parser answers) is a parameter. *)

From Stdlib Require Import ZArith NArith Ascii String List Bool Lia.
From stdpp Require Import base strings list gmap.
Import ListNotations.
Open Scope string_scope.

(** ** path/filepath on Unix *)

Module Filepath.

(** [os.IsPathSeparator] with [Separator = '/']. *)
Definition IsPathSeparator (c : ascii) : bool := Ascii.eqb c "/"%char.

Fixpoint has_sep (s : string) : bool :=
  match s with
  | EmptyString => false
  | String c r => IsPathSeparator c || has_sep r
  end.

(** The loop [for len(path) > 0 && IsPathSeparator(path[len(path)-1])]
    of [Base]: drop every trailing separator. *)
Fixpoint strip_trailing_seps (s : string) : string :=
  match s with
  | EmptyString => EmptyString
  | String c r =>
      match strip_trailing_seps r with
      | EmptyString => if IsPathSeparator c then EmptyString else String c EmptyString
      | r' => String c r'
      end
  end.

(** [path[i+1:]] for the last separator index [i]; the whole string when
    there is no separator. *)
Fixpoint after_last_sep (s : string) : string :=
  match s with
  | EmptyString => EmptyString
  | String c r =>
      if has_sep r then after_last_sep r
      else if IsPathSeparator c then r else String c r
  end.

(** [filepath.Base]. *)
Definition Base (path : string) : string :=
  match path with
  | EmptyString => "."
  | _ =>
      match after_last_sep (strip_trailing_seps path) with
      | EmptyString => "/"
      | e => e
      end
  end.

(** The elements between separators, empty ones included. *)
Fixpoint split_sep (s : string) : list string :=
  match s with
  | EmptyString => [EmptyString]
  | String c r =>
      if IsPathSeparator c then EmptyString :: split_sep r
      else match split_sep r with
           | h :: t => String c h :: t
           | [] => [String c EmptyString]
           end
  end.

(** One element of the scan of [Clean]; [out] holds the elements written
    so far, last one first. *)
Definition clean_elem (rooted : bool) (out : list string) (e : string)
  : list string :=
  if decide (e = "") then out
  else if decide (e = ".") then out
  else if decide (e = "..") then
    match out with
    | top :: rest => if decide (top = "..") then e :: out else rest
    | [] => if rooted then out else [e]
    end
  else e :: out.

(** [filepath.Clean]. *)
Definition Clean (path : string) : string :=
  match path with
  | EmptyString => "."
  | String c _ =>
      let rooted := IsPathSeparator c in
      let out := rev (fold_left (clean_elem rooted) (split_sep path) []) in
      match rooted, out with
      | true, _ => "/" ++ String.concat "/" out
      | false, [] => "."
      | false, _ => String.concat "/" out
      end
  end.

(** [filepath.Join]: the elements from the first non-empty one on, joined
    with the separator and cleaned; the empty string when all are empty. *)
Fixpoint Join (elem : list string) : string :=
  match elem with
  | [] => ""
  | e :: rest =>
      if decide (e = "") then Join rest
      else Clean (String.concat "/" elem)
  end.

End Filepath.

(** ** Records of the catalog (package [models]) *)

(** The two tables of the store. The fields are the ones [main.go] reads or
    writes, with the primary key [ID] that [gorm.Model] adds; its time
    stamps are not read by [main.go] and are left out. *)

Module Movie.
Record t := mk {
  ID : N;
  DirPath : string;
  DirName : string;
  CleanDirName : string;
  FileSize : Z;
  BaseName : string;
  CleanBaseName : string;
  MimeType : string;
  IsGroupDir : bool;
  IsPrepared : bool }.

(** The zero value [models.Movie{}]. *)
Definition zero : t := mk 0 "" "" "" 0 "" "" "" false false.

Definition with_ID (i : N) (m : t) : t :=
  mk i (DirPath m) (DirName m) (CleanDirName m) (FileSize m) (BaseName m)
     (CleanBaseName m) (MimeType m) (IsGroupDir m) (IsPrepared m).
End Movie.

Module Subtitle.
Record t := mk {
  ID : N;
  DirPath : string;
  DirName : string;
  CleanDirName : string;
  BaseName : string;
  CleanBaseName : string }.

Definition with_ID (i : N) (s : t) : t :=
  mk i (DirPath s) (DirName s) (CleanDirName s) (BaseName s) (CleanBaseName s).
End Subtitle.

(** What the store holds: the rows of [movies] and of [subtitles], in
    insertion order. *)
Record Catalog := mkCatalog {
  movies : list Movie.t;
  subtitles : list Subtitle.t }.

Definition empty_catalog : Catalog := mkCatalog [] [].

(** ** The file system and the [os] calls of [main.go] *)

Inductive fnode :=
| FDir
| FFile (content : Catalog).

Abbreviation FS := (gmap string fnode).

(** A Go result [(T, error)]. *)
Inductive result (A : Type) :=
| Ok (a : A)
| Err (e : string).
Arguments Ok {A} a.
Arguments Err {A} e.

(** What the directory scan reports for one file (package [collections]). *)
Record MovieDirInfo := {
  Dir : string;
  MovieFile : string;
  MovieSize : Z;
  MimeType : string }.

Record SubDirInfo := {
  SubDir : string;
  SubFile : string }.

(** Everything the operating system decides during one run. *)
Record World := {
  UserCacheDir : result string;
  stat_error : string -> bool;
  mkdirall_error : string -> bool;
  remove_error : string -> bool;
  create_error : string -> bool;
  removeall_error : string -> bool;
  LookPath : string -> result string;
  OpenDB_error : string -> option string;
  ScanDir : string -> result (list MovieDirInfo * list SubDirInfo) }.

Module Os.

Inductive StatResult := StatOk | StatNotExist | StatOtherError.

(** [os.Stat], as far as [init] looks at it. *)
Definition Stat (w : World) (p : string) (fs : FS) : StatResult :=
  if stat_error w p then StatOtherError
  else match fs !! p with
       | Some _ => StatOk
       | None => StatNotExist
       end.

(** [os.IsNotExist] of the error of a [Stat]. *)
Definition IsNotExist (r : StatResult) : bool :=
  match r with
  | StatNotExist => true
  | _ => false
  end.

Fixpoint chain_from (pre : string) (first : bool) (elems : list string)
  : list string :=
  match elems with
  | [] => []
  | e :: rest =>
      let here := if first then e else pre ++ "/" ++ e in
      ((if decide (here = "") then [] else [here]) ++ chain_from here false rest)%list
  end.

(** A path with all the directories above it, topmost first. *)
Definition dir_chain (p : string) : list string :=
  chain_from "" true (Filepath.split_sep p).

Definition is_file (fs : FS) (p : string) : bool :=
  match fs !! p with
  | Some (FFile _) => true
  | _ => false
  end.

Definition is_dir (fs : FS) (p : string) : bool :=
  match fs !! p with
  | Some FDir => true
  | _ => false
  end.

(** The directory a path lies in, when it is not the current one or the root. *)
Definition parent (p : string) : option string :=
  match rev (dir_chain p) with
  | _ :: up :: _ => Some up
  | _ => None
  end.

Definition under (p k : string) : bool :=
  String.eqb k p || String.prefix (p ++ "/") k.

Definition has_children (fs : FS) (p : string) : bool :=
  existsb (fun kv => String.prefix (p ++ "/") (fst kv)) (map_to_list fs).

(** [os.MkdirAll]: the path and the directories above it. *)
Definition MkdirAll (w : World) (p : string) (fs : FS) : result FS :=
  if mkdirall_error w p then Err "mkdir"
  else if existsb (is_file fs) (dir_chain p) then Err "not a directory"
  else Ok (fold_left (fun acc d => <[d := FDir]> acc) (dir_chain p) fs).

(** [os.Remove]: one file or one empty directory. *)
Definition Remove (w : World) (p : string) (fs : FS) : result FS :=
  if remove_error w p then Err "remove"
  else match fs !! p with
       | None => Err "no such file or directory"
       | Some FDir =>
           if has_children fs p then Err "directory not empty"
           else Ok (delete p fs)
       | Some (FFile _) => Ok (delete p fs)
       end.

(** [os.Create]: the file is created or truncated; it is empty afterwards. *)
Definition Create (w : World) (p : string) (fs : FS) : result FS :=
  if create_error w p then Err "create"
  else if is_dir fs p then Err "is a directory"
  else match parent p with
       | Some up =>
           if is_dir fs up then Ok (<[p := FFile empty_catalog]> fs)
           else Err "no such file or directory"
       | None => Ok (<[p := FFile empty_catalog]> fs)
       end.

(** [os.RemoveAll]: the path and everything below it; nothing for the
    empty path. The file system is left as it was when the call fails. *)
Definition RemoveAll (w : World) (p : string) (fs : FS) : result FS :=
  if decide (p = "") then Ok fs
  else if removeall_error w p then Err "removeall"
  else Ok (filter (fun kv => under p (fst kv) = false) fs).

End Os.

(** ** The store as [main.go] uses it through gorm *)

Module Gorm.

(** The key the store gives a row inserted with a blank key: one more
    than the largest key of the table. *)
Definition next_movie_id (rows : list Movie.t) : N :=
  N.succ (fold_right N.max 0%N (map Movie.ID rows)).

Definition next_sub_id (rows : list Subtitle.t) : N :=
  N.succ (fold_right N.max 0%N (map Subtitle.ID rows)).

(** [db.Create(&models.Movie{...})]: the row is appended; a blank (zero)
    key is replaced by a fresh one. *)
Definition CreateMovie (m : Movie.t) (c : Catalog) : Catalog :=
  let i := if N.eqb (Movie.ID m) 0 then next_movie_id (movies c) else Movie.ID m in
  mkCatalog (movies c ++ [Movie.with_ID i m]) (subtitles c).

(** [db.Create(&models.Subtitle{...})]. *)
Definition CreateSubtitle (s : Subtitle.t) (c : Catalog) : Catalog :=
  let i := if N.eqb (Subtitle.ID s) 0 then next_sub_id (subtitles c) else Subtitle.ID s in
  mkCatalog (movies c) (subtitles c ++ [Subtitle.with_ID i s]).

Definition same_dir (a b : Movie.t) : bool :=
  String.eqb (Movie.DirName a) (Movie.DirName b)
  && String.eqb (Movie.DirPath a) (Movie.DirPath b).

(** [COUNT( * )] of the group of [k]. *)
Definition count_dir (k : Movie.t) (rows : list Movie.t) : nat :=
  length (List.filter (same_dir k) rows).

(** A result row of [Select("dir_name, dir_path, COUNT( * ) count")] read
    into a [models.Movie]: the two selected columns, every other field
    zero. *)
Definition group_row (r : Movie.t) : Movie.t :=
  Movie.mk 0 (Movie.DirPath r) (Movie.DirName r) "" 0 "" "" "" false false.

(** [Group("dir_name, dir_path")]: one row per distinct pair, here in the
    order of first appearance. *)
Fixpoint group_by_dir (rows : list Movie.t) : list Movie.t :=
  match rows with
  | [] => []
  | r :: rest =>
      group_row r :: List.filter (fun g => negb (same_dir r g)) (group_by_dir rest)
  end.

(** [Table("movies").Select(...).Group(...).Having("count > ?", 1).Find(&movieGroups)]. *)
Definition duplicate_dirs (rows : list Movie.t) : list Movie.t :=
  List.filter (fun g => Nat.ltb 1 (count_dir g rows)) (group_by_dir rows).

(** A struct condition constrains a column only when the field of the
    struct is not its zero value. *)
Definition cond_string (q v : string) : bool :=
  String.eqb q "" || String.eqb q v.
Definition cond_N (q v : N) : bool := N.eqb q 0 || N.eqb q v.
Definition cond_Z (q v : Z) : bool := Z.eqb q 0 || Z.eqb q v.
Definition cond_bool (q v : bool) : bool := negb q || v.

Definition matches (q r : Movie.t) : bool :=
  cond_N (Movie.ID q) (Movie.ID r)
  && cond_string (Movie.DirPath q) (Movie.DirPath r)
  && cond_string (Movie.DirName q) (Movie.DirName r)
  && cond_string (Movie.CleanDirName q) (Movie.CleanDirName r)
  && cond_Z (Movie.FileSize q) (Movie.FileSize r)
  && cond_string (Movie.BaseName q) (Movie.BaseName r)
  && cond_string (Movie.CleanBaseName q) (Movie.CleanBaseName r)
  && cond_string (Movie.MimeType q) (Movie.MimeType r)
  && cond_bool (Movie.IsGroupDir q) (Movie.IsGroupDir r)
  && cond_bool (Movie.IsPrepared q) (Movie.IsPrepared r).

(** [db.Where(&models.Movie{...}).Find(&movieList)]. *)
Definition Where (q : Movie.t) (rows : list Movie.t) : list Movie.t :=
  List.filter (matches q) rows.

Definition set_string (u v : string) : string :=
  if String.eqb u "" then v else u.
Definition set_Z (u v : Z) : Z := if Z.eqb u 0 then v else u.

(** The columns an [Update] with a struct writes: its non-zero fields. *)
Definition assign (u r : Movie.t) : Movie.t :=
  Movie.mk (Movie.ID r)
    (set_string (Movie.DirPath u) (Movie.DirPath r))
    (set_string (Movie.DirName u) (Movie.DirName r))
    (set_string (Movie.CleanDirName u) (Movie.CleanDirName r))
    (set_Z (Movie.FileSize u) (Movie.FileSize r))
    (set_string (Movie.BaseName u) (Movie.BaseName r))
    (set_string (Movie.CleanBaseName u) (Movie.CleanBaseName r))
    (set_string (Movie.MimeType u) (Movie.MimeType r))
    (Movie.IsGroupDir u || Movie.IsGroupDir r)
    (Movie.IsPrepared u || Movie.IsPrepared r).

(** [db.Model(&m).Update(&u)]: the row whose key is the key of [m]; with a
    blank key there is no condition and every row is written. *)
Definition targets (m r : Movie.t) : bool :=
  N.eqb (Movie.ID m) 0 || N.eqb (Movie.ID r) (Movie.ID m).

Definition Update (m u : Movie.t) (rows : list Movie.t) : list Movie.t :=
  map (fun r => if targets m r then assign u r else r) rows.

End Gorm.

(** ** The process *)

(** How a run can end before [main] returns. *)
Inductive Exit :=
| Panic (msg : string)
| OsExit (code : Z).

Inductive outcome (A : Type) :=
| Running (a : A) (fs : FS)
| Halted (e : Exit) (fs : FS).
Arguments Running {A} a fs.
Arguments Halted {A} e fs.

(** A piece of the program: it works on the file system and either goes
    on with a value or halts the process. *)
Definition Proc (A : Type) : Type := FS -> outcome A.

#[export] Instance Proc_ret : MRet Proc := fun A a fs => Running a fs.
#[export] Instance Proc_bind : MBind Proc := fun A B k c fs =>
  match c fs with
  | Running a fs' => k a fs'
  | Halted e fs' => Halted e fs'
  end.

Definition panic {A : Type} (msg : string) : Proc A := fun fs => Halted (Panic msg) fs.
Definition os_Exit {A : Type} (code : Z) : Proc A := fun fs => Halted (OsExit code) fs.

(** What the title parser returns for a name (package [parsetorrentname]);
    only the title is read. *)
Record TorrentInfo := { Title : string }.

Record ServerConfig := {
  DB : string;
  Port : Z;
  AppDir : string;
  TMDBApiKey : string;
  ScreenResolutions : list string }.

(** The command line after [flag.Parse]: the value of each flag when it
    was given, and every [-resolution] token in the order given. *)
Record CommandLine := {
  opt_path : option string;
  opt_port : option Z;
  opt_tmdb_key : option string;
  opt_resolution : list string }.

Definition appDirName : string := "voodioapp".
Definition dbFileName : string := "voodio.db".

Definition resolutionParam : Type := list string.

(** [func (r *resolutionParam) Set(param string) error]. *)
Definition resolutionParam_Set (r : resolutionParam) (param : string)
  : resolutionParam * option string :=
  ((r ++ [param])%list, None).

Section Program.

(** The world of this run, and the two library functions whose results
    [main.go] only passes on or tests: [parsetorrentname.Parse] and
    [strings.TrimSpace]. *)
Variable w : World.
Variable Parse : string -> TorrentInfo * option string.
Variable TrimSpace : string -> string.

(** [var cacheDir, _ = os.UserCacheDir()]: the error is dropped; with an
    error the call returns the empty string. *)
Definition cacheDir : string :=
  match UserCacheDir w with
  | Ok d => d
  | Err _ => ""
  end.

Definition getAppDir : string := Filepath.Join [cacheDir; appDirName].

Definition getDBPath : string := Filepath.Join [getAppDir; dbFileName].

(** [func init()], first block: "create working app dir". *)
Definition createAppDir : Proc unit := fun fs =>
  let appDirPath := getAppDir in
  if Os.IsNotExist (Os.Stat w appDirPath fs) then
    match Os.MkdirAll w appDirPath fs with
    | Err _ => panic ("Unable to create App Dir on " ++ appDirPath) fs
    | Ok fs' => Running tt fs'
    end
  else Running tt fs.

(** Second block: "remove old database if exist". *)
Definition removeObsoleteDB : Proc unit := fun fs =>
  let dbPath := getDBPath in
  if negb (Os.IsNotExist (Os.Stat w dbPath fs)) then
    match Os.Remove w dbPath fs with
    | Err _ => panic "Unable removing obsolete DB" fs
    | Ok fs' => Running tt fs'
    end
  else Running tt fs.

(** Third block: [os.Create(dbPath)]. *)
Definition createDBFile : Proc unit := fun fs =>
  match Os.Create w getDBPath fs with
  | Err _ => os_Exit 1 fs
  | Ok fs' => Running tt fs'
  end.

(** [func init()]. *)
Definition init : Proc unit :=
  _ ← createAppDir; _ ← removeObsoleteDB; createDBFile.

(** [func cleanup()]: the error of [os.RemoveAll] is dropped. *)
Definition cleanup : Proc unit := fun fs =>
  match Os.RemoveAll w getAppDir fs with
  | Ok fs' => Running tt fs'
  | Err _ => Running tt fs
  end.

(** One turn of the loop of [saveMovies]. *)
Definition saveMovie (c : Catalog) (movie : MovieDirInfo) : Catalog :=
  let dirName := Filepath.Base (Dir movie) in
  let '(dirNameParsedInfo, err) := Parse (Filepath.Base (Dir movie)) in
  let cleanDirName :=
    match err with
    | None => Title dirNameParsedInfo
    | Some _ => ""
    end in
  let '(baseNameParsedInfo, _) := Parse (MovieFile movie) in
  let cleanBaseName :=
    match err with
    | None => Title baseNameParsedInfo
    | Some _ => ""
    end in
  Gorm.CreateMovie
    {| Movie.ID := 0;
       Movie.DirPath := Dir movie;
       Movie.DirName := dirName;
       Movie.CleanDirName := cleanDirName;
       Movie.FileSize := MovieSize movie;
       Movie.BaseName := MovieFile movie;
       Movie.CleanBaseName := cleanBaseName;
       Movie.MimeType := MimeType movie;
       Movie.IsGroupDir := false;
       Movie.IsPrepared := false |} c.

(** [func saveMovies(dbConn, movies)]. *)
Definition saveMovies (movies : list MovieDirInfo) (c : Catalog) : Catalog :=
  fold_left saveMovie movies c.

(** One turn of the loop of [saveSubs]. *)
Definition saveSub (c : Catalog) (sub : SubDirInfo) : Catalog :=
  let dirName := Filepath.Base (SubDir sub) in
  let '(dirNameParsedInfo, err) := Parse (Filepath.Base (SubDir sub)) in
  let cleanDirName :=
    match err with
    | None => Title dirNameParsedInfo
    | Some _ => ""
    end in
  let '(baseNameParsedInfo, _) := Parse (SubFile sub) in
  let cleanBaseName :=
    match err with
    | None => Title baseNameParsedInfo
    | Some _ => ""
    end in
  Gorm.CreateSubtitle
    {| Subtitle.ID := 0;
       Subtitle.DirPath := SubDir sub;
       Subtitle.DirName := dirName;
       Subtitle.CleanDirName := cleanDirName;
       Subtitle.BaseName := SubFile sub;
       Subtitle.CleanBaseName := cleanBaseName |} c.

(** [func saveSubs(dbConn, subs)]. *)
Definition saveSubs (subs : list SubDirInfo) (c : Catalog) : Catalog :=
  fold_left saveSub subs c.

(** The body of [for _, m := range movieList]. *)
Definition flag_row (rows : list Movie.t) (m : Movie.t) : list Movie.t :=
  Gorm.Update m
    (Movie.mk 0 "" "" "" 0 "" "" "" true false) rows.

(** The body of [for _, mg := range movieGroups]. *)
Definition flag_group (rows : list Movie.t) (mg : Movie.t) : list Movie.t :=
  let movieList :=
    Gorm.Where
      (Movie.mk 0 (Movie.DirPath mg) (Movie.DirName mg) "" 0 "" "" "" false false)
      rows in
  fold_left flag_row movieList rows.

(** The pass "Find duplicate directory names" of [main] (lines 150 to
    171): the grouped query, then the two nested loops. *)
Definition detectGroups (c : Catalog) : Catalog :=
  let movieGroups := Gorm.duplicate_dirs (movies c) in
  mkCatalog (fold_left flag_group movieGroups (movies c)) (subtitles c).

(** [func checkFfmpegInstalled() bool]. *)
Definition checkFfmpegInstalled : bool :=
  match LookPath w "ffmpeg" with
  | Err _ => false
  | Ok _ => true
  end.

(** The catalog behind an open connection is the content of the storage
    file. *)
Definition db_read (path : string) (fs : FS) : Catalog :=
  match fs !! path with
  | Some (FFile c) => c
  | _ => empty_catalog
  end.

Definition db_exec (path : string) (f : Catalog -> Catalog) : Proc unit :=
  fun fs => Running tt (<[path := FFile (f (db_read path fs))]> fs).

Definition default_resolutions : resolutionParam :=
  ["360p"; "480p"; "720p"; "1080p"].

(** [func main()] up to the construction of the server (lines 93 to
    180): it halts with a panic or goes on with the configuration the
    server is built from. *)
Definition main_setup (cl : CommandLine) : Proc ServerConfig :=
  let parentMoviePath := default "" (opt_path cl) in
  let serverPort := default 1818%Z (opt_port cl) in
  let tmdbAPIKey := default "" (opt_tmdb_key cl) in
  let screenRes :=
    fold_left (fun r p => fst (resolutionParam_Set r p)) (opt_resolution cl) [] in
  let screenRes :=
    if Nat.eqb (length screenRes) 0 then default_resolutions else screenRes in
  if Nat.eqb (String.length parentMoviePath) 0 then
    _ ← cleanup; panic "No movie path directory provided, exited"
  else if negb checkFfmpegInstalled then
    panic "sorry, you haven't install ffmpeg, INSTALL FFMPEG first!"
  else if Nat.eqb (String.length (TrimSpace tmdbAPIKey)) 0 then
    _ ← cleanup; panic "No TMDB Api Key provided, exited"
  else
    match OpenDB_error w getDBPath with
    | Some e => _ ← cleanup; panic ("Unable to create DB connection:" ++ e)
    | None =>
        match ScanDir w parentMoviePath with
        | Err e => _ ← cleanup; panic ("Error while scanning movies " ++ e)
        | Ok (movies, subs) =>
            _ ← db_exec getDBPath (saveMovies movies);
            _ ← db_exec getDBPath (saveSubs subs);
            _ ← db_exec getDBPath detectGroups;
            mret {| DB := getDBPath;
                    Port := serverPort;
                    AppDir := getAppDir;
                    TMDBApiKey := tmdbAPIKey;
                    ScreenResolutions := screenRes |}
        end
    end.

End Program.

(** ** Serving and shutdown (lines 182 to 214 of [main])

    Two threads: [main], and the goroutine that waits for the interrupt.
    A state holds where each of them is, the one-slot buffer of
    [closeSignal], whether the server has been told to shut down, the file
    system, and the history of what happened, oldest first. A label says
    who moves; the outcome of a library call that the world decides
    ([ListenAndServe] failing, [Shutdown] returning with or without an
    error) is a label of its own. *)

Module Lifecycle.

Inductive Level := Info | Error.

Inductive Event :=
| EvSpawn
| EvLog (lvl : Level) (msg : string)
| EvShowIP (port : Z)
| EvListenAndServe
| EvServeReturned (err : string)
| EvInterrupt
| EvSignalObserved
| EvWithTimeout (d : Z)
| EvSetKeepAlivesEnabled (b : bool)
| EvShutdownCalled (d : Z)
| EvShutdownReturned (err : option string)
| EvServerDone
| EvRemoveAll (path : string)
| EvCancel
| EvReturn.

(** Where [main] is: the statement it executes next. *)
Inductive MainPc :=
| MGo             (* go func() { ... }() *)
| MLogActivate    (* log.Infoln("Activate API Server") *)
| MLogAlive       (* log.Infoln("Server is alive") *)
| MShowIP         (* showIPServer( *serverPort) *)
| MListen         (* the call of webServer.ListenAndServe() *)
| MServing        (* inside ListenAndServe *)
| MLogServeError  (* log.Errorln("Unable to start server on port", ...) *)
| MWaitDone       (* <-serverDone *)
| MCleanup        (* cleanup() *)
| MLogClosed      (* log.Infoln("Server closed") *)
| MExit.          (* main has returned *)

(** Where the goroutine is. *)
Inductive WatcherPc :=
| WNotStarted
| WRecvSignal     (* <-closeSignal *)
| WLogShutting    (* log.Infoln("Shutting down...") *)
| WWithTimeout    (* context.WithTimeout(..., time.Second*30) *)
| WKeepAlives     (* webServer.SetKeepAlivesEnabled(false) *)
| WShutdown       (* the call of webServer.Shutdown(ctx) *)
| WInShutdown     (* inside Shutdown *)
| WLogError       (* log.Errorln("Couldn't gracefully shutdown") *)
| WSendDone       (* serverDone <- true *)
| WCancel         (* the deferred cancel() *)
| WDone.

Record State := mkState {
  mpc : MainPc;
  wpc : WatcherPc;
  closeSignal : bool;
  inShutdown : bool;
  fs : FS;
  trace : list Event }.

Inductive Label :=
| Interrupt
| Main
| ServeError (e : string)
| Watcher
| ShutdownOk
| ShutdownError (e : string).

(** [time.Second], in nanoseconds. *)
Definition Second : Z := 1000000000.

Definition ErrServerClosed : string := "http: Server closed".

Section Steps.

Variable w : World.
Variable serverPort : Z.

Definition after_cleanup (f : FS) : FS :=
  match cleanup w f with
  | Running _ f' => f'
  | Halted _ f' => f'
  end.

Definition emit (s : State) (m : MainPc) (k : WatcherPc) (evs : list Event)
  : State :=
  mkState m k (closeSignal s) (inShutdown s) (fs s) (trace s ++ evs).

Definition main_step (s : State) : option State :=
  match mpc s with
  | MGo =>
      match wpc s with
      | WNotStarted => Some (emit s MLogActivate WRecvSignal [EvSpawn])
      | _ => None
      end
  | MLogActivate =>
      Some (emit s MLogAlive (wpc s) [EvLog Info "Activate API Server"])
  | MLogAlive =>
      Some (emit s MShowIP (wpc s) [EvLog Info "Server is alive"])
  | MShowIP => Some (emit s MListen (wpc s) [EvShowIP serverPort])
  | MListen => Some (emit s MServing (wpc s) [EvListenAndServe])
  | MServing =>
      if inShutdown s
      then Some (emit s MWaitDone (wpc s) [EvServeReturned ErrServerClosed])
      else None
  | MLogServeError =>
      Some (emit s MWaitDone (wpc s)
              [EvLog Error "Unable to start server on port"])
  | MWaitDone => None
  | MCleanup =>
      Some (mkState MLogClosed (wpc s) (closeSignal s) (inShutdown s)
              (after_cleanup (fs s))
              (trace s ++ [EvLog Info "Cleaning up artifacts";
                            EvRemoveAll (getAppDir w)]))
  | MLogClosed => Some (emit s MExit (wpc s) [EvLog Info "Server closed"; EvReturn])
  | MExit => None
  end.

Definition watcher_step (s : State) : option State :=
  match wpc s with
  | WNotStarted => None
  | WRecvSignal =>
      if closeSignal s
      then Some (mkState (mpc s) WLogShutting false (inShutdown s) (fs s)
                   (trace s ++ [EvSignalObserved]))
      else None
  | WLogShutting => Some (emit s (mpc s) WWithTimeout [EvLog Info "Shutting down..."])
  | WWithTimeout => Some (emit s (mpc s) WKeepAlives [EvWithTimeout (Second * 30)])
  | WKeepAlives => Some (emit s (mpc s) WShutdown [EvSetKeepAlivesEnabled false])
  | WShutdown =>
      Some (mkState (mpc s) WInShutdown (closeSignal s) true (fs s)
              (trace s ++ [EvShutdownCalled (Second * 30)]))
  | WInShutdown => None
  | WLogError =>
      Some (emit s (mpc s) WSendDone [EvLog Error "Couldn't gracefully shutdown"])
  | WSendDone =>
      match mpc s with
      | MWaitDone => Some (emit s MCleanup WCancel [EvServerDone])
      | _ => None
      end
  | WCancel => Some (emit s (mpc s) WDone [EvCancel])
  | WDone => None
  end.

(** One step. Nothing moves once [main] has returned: the process is
    gone. An interrupt is put into [closeSignal] when its slot is free
    and dropped otherwise. *)
Definition step (l : Label) (s : State) : option State :=
  match mpc s with
  | MExit => None
  | _ =>
      match l with
      | Interrupt =>
          Some (mkState (mpc s) (wpc s) true (inShutdown s) (fs s)
                  (trace s ++ [EvInterrupt]))
      | Main => main_step s
      | ServeError e =>
          match mpc s with
          | MServing =>
              if inShutdown s || String.eqb e ErrServerClosed then None
              else Some (emit s MLogServeError (wpc s) [EvServeReturned e])
          | _ => None
          end
      | Watcher => watcher_step s
      | ShutdownOk =>
          match wpc s with
          | WInShutdown => Some (emit s (mpc s) WSendDone [EvShutdownReturned None])
          | _ => None
          end
      | ShutdownError e =>
          match wpc s with
          | WInShutdown =>
              Some (emit s (mpc s) WLogError [EvShutdownReturned (Some e)])
          | _ => None
          end
      end
  end.

Fixpoint run (ls : list Label) (s : State) : option State :=
  match ls with
  | [] => Some s
  | l :: rest =>
      match step l s with
      | Some s' => run rest s'
      | None => None
      end
  end.

(** The state in which line 182 is reached: the channels exist, the
    interrupt is routed to [closeSignal], the goroutine is not started. *)
Definition start (f : FS) : State :=
  mkState MGo WNotStarted false false f [].

Inductive reachable (f : FS) : State -> Prop :=
| reach_start : reachable f (start f)
| reach_step s l s' : reachable f s -> step l s = Some s' -> reachable f s'.

(** A thread can move: some label other than [Interrupt] is enabled. *)
Definition can_move (s : State) : bool :=
  match step Main s, step Watcher s, step ShutdownOk s with
  | None, None, None => false
  | _, _, _ => true
  end.

End Steps.

(** [e] happens-before every [b]: each occurrence of [b] in the history
    has an [a] with [P a] earlier. *)
Definition preceded_by (P : Event -> Prop) (b : Event) (tr : list Event) : Prop :=
  forall l1 l2, tr = (l1 ++ b :: l2)%list -> exists a, In a l1 /\ P a.

End Lifecycle.

(** The program from process start to the point where the server is built. *)
Definition startup (w : World) (Parse : string -> TorrentInfo * option string)
    (TrimSpace : string -> string) (cl : CommandLine) : Proc ServerConfig :=
  _ ← init w; main_setup w Parse TrimSpace cl.

(** The world [w] with another answer of [os.UserCacheDir]. *)
Definition with_UserCacheDir (r : result string) (w : World) : World := {|
  UserCacheDir := r;
  stat_error := stat_error w;
  mkdirall_error := mkdirall_error w;
  remove_error := remove_error w;
  create_error := create_error w;
  removeall_error := removeall_error w;
  LookPath := LookPath w;
  OpenDB_error := OpenDB_error w;
  ScanDir := ScanDir w |}.

(** ** Stand-ins used to run the model on concrete inputs *)

Module Sample.

Fixpoint before_dot (s : string) : string :=
  match s with
  | EmptyString => EmptyString
  | String c r => if Ascii.eqb c "."%char then EmptyString else String c (before_dot r)
  end.

(** A title parser: the text before the first dot; it reports an error
    for a name that starts with a dot. *)
Definition Parse (name : string) : TorrentInfo * option string :=
  match before_dot name with
  | EmptyString => ({| Title := "" |}, Some "no title")
  | t => ({| Title := t |}, None)
  end.

Definition is_space (c : ascii) : bool :=
  existsb (Ascii.eqb c) [" "%char; "009"%char; "010"%char; "011"%char; "012"%char; "013"%char].

Fixpoint trim_left (s : string) : string :=
  match s with
  | EmptyString => EmptyString
  | String c r => if is_space c then trim_left r else s
  end.

Fixpoint trim_right (s : string) : string :=
  match s with
  | EmptyString => EmptyString
  | String c r =>
      match trim_right r with
      | EmptyString => if is_space c then EmptyString else String c EmptyString
      | r' => String c r'
      end
  end.

(** [strings.TrimSpace] on ASCII text. *)
Definition TrimSpace (s : string) : string := trim_right (trim_left s).

Definition no_error (_ : string) : bool := false.

(** A world where every call succeeds and the scan finds two episodes in
    one directory, and a film with its subtitle in another. *)
Definition scan : list MovieDirInfo * list SubDirInfo :=
  ([ {| Dir := "/movies/Show.S01"; MovieFile := "ep1.mkv"; MovieSize := 700;
        MimeType := "video/x-matroska" |};
     {| Dir := "/movies/Show.S01"; MovieFile := "ep2.mkv"; MovieSize := 701;
        MimeType := "video/x-matroska" |};
     {| Dir := "/movies/Film.2020"; MovieFile := "Film.2020.mkv"; MovieSize := 900;
        MimeType := "video/x-matroska" |} ],
   [ {| SubDir := "/movies/Film.2020"; SubFile := "Film.2020.srt" |} ]).

Definition world : World := {|
  UserCacheDir := Ok "/home/u/.cache";
  stat_error := no_error;
  mkdirall_error := no_error;
  remove_error := no_error;
  create_error := no_error;
  removeall_error := no_error;
  LookPath := fun _ => Ok "/usr/bin/ffmpeg";
  OpenDB_error := fun _ => None;
  ScanDir := fun _ => Ok scan |}.

Definition args : CommandLine := {|
  opt_path := Some "/movies";
  opt_port := None;
  opt_tmdb_key := Some "k3y";
  opt_resolution := [] |}.

(** The same world without ffmpeg on the search path. *)
Definition world_no_ffmpeg : World := {|
  UserCacheDir := UserCacheDir world;
  stat_error := no_error;
  mkdirall_error := no_error;
  remove_error := no_error;
  create_error := no_error;
  removeall_error := no_error;
  LookPath := fun _ => Err "executable file not found in $PATH";
  OpenDB_error := fun _ => None;
  ScanDir := fun _ => Ok scan |}.

(** The same world with no user cache directory to be found. *)
Definition world_no_cache : World := {|
  UserCacheDir := Err "neither $XDG_CACHE_HOME nor $HOME are defined";
  stat_error := no_error;
  mkdirall_error := no_error;
  remove_error := no_error;
  create_error := no_error;
  removeall_error := no_error;
  LookPath := LookPath world;
  OpenDB_error := fun _ => None;
  ScanDir := fun _ => Ok scan |}.

(** A row left in the store by an earlier run. *)
Definition old_row : Movie.t :=
  Movie.mk 7 "/old" "old" "old" 1 "old.avi" "old" "video/avi" true true.

(** The first row of the catalog this world ends up with. *)
Definition first_row : Movie.t :=
  Movie.mk 1 "/movies/Show.S01" "Show.S01" "Show" 700 "ep1.mkv" "ep1"
    "video/x-matroska" true false.

(** A file system in which an earlier run left its store behind. *)
Definition fs_with_old_store : FS :=
  <[ "/home/u/.cache/voodioapp/voodio.db" := FFile (mkCatalog [old_row] []) ]>
    (<[ "/home/u/.cache/voodioapp" := FDir ]> ∅).

(** A run in which the interrupt arrives right after the watcher is
    started: the watcher shuts the server down before [main] calls
    [ListenAndServe]. *)
Definition early_interrupt : list Lifecycle.Label :=
  [ Lifecycle.Main; Lifecycle.Interrupt;
    Lifecycle.Watcher; Lifecycle.Watcher; Lifecycle.Watcher; Lifecycle.Watcher;
    Lifecycle.Watcher; Lifecycle.ShutdownOk;
    Lifecycle.Main; Lifecycle.Main; Lifecycle.Main; Lifecycle.Main; Lifecycle.Main;
    Lifecycle.Watcher; Lifecycle.Main; Lifecycle.Main ].

(** The state that run ends in. *)
Definition stopped : Lifecycle.State :=
  Eval vm_compute in
    match Lifecycle.run world 1818 early_interrupt (Lifecycle.start ∅) with
    | Some s => s
    | None => Lifecycle.start ∅
    end.

(** A run in which the server serves, the interrupt arrives, and the
    watcher gets as far as calling [Shutdown]. *)
Definition until_shutdown : list Lifecycle.Label :=
  [ Lifecycle.Main; Lifecycle.Main; Lifecycle.Main; Lifecycle.Main; Lifecycle.Main;
    Lifecycle.Interrupt;
    Lifecycle.Watcher; Lifecycle.Watcher; Lifecycle.Watcher; Lifecycle.Watcher;
    Lifecycle.Watcher ].

Definition stopping : Lifecycle.State :=
  Eval vm_compute in
    match Lifecycle.run world 1818 until_shutdown (Lifecycle.start fs_with_old_store) with
    | Some s => s
    | None => Lifecycle.start ∅
    end.

(** What follows when [Shutdown] has come back with an error. *)
Definition after_deadline : list Lifecycle.Label :=
  [ Lifecycle.Main; Lifecycle.Watcher; Lifecycle.Watcher; Lifecycle.Main;
    Lifecycle.Watcher; Lifecycle.Main ].

Definition stopped_late : Lifecycle.State :=
  Eval vm_compute in
    match Lifecycle.run world 1818
            (Lifecycle.ShutdownError "context deadline exceeded" :: after_deadline)
            stopping with
    | Some s => s
    | None => Lifecycle.start ∅
    end.

End Sample.

(** ** Notions used to state what the duplicate-directory pass does *)

Module Detect.

(** The row with its group flag set. *)
Definition flagged (r : Movie.t) : Movie.t :=
  Movie.mk (Movie.ID r) (Movie.DirPath r) (Movie.DirName r) (Movie.CleanDirName r)
    (Movie.FileSize r) (Movie.BaseName r) (Movie.CleanBaseName r) (Movie.MimeType r)
    true (Movie.IsPrepared r).

(** Set the flag of the rows whose key is hit. *)
Definition mark (hit : N -> bool) (rows : list Movie.t) : list Movie.t :=
  map (fun r => if hit (Movie.ID r) then flagged r else r) rows.

(** The keys the updates for the rows [ms] write to. *)
Definition hit_by (ms : list Movie.t) (i : N) : bool :=
  existsb (fun m => N.eqb (Movie.ID m) 0 || N.eqb i (Movie.ID m)) ms.

(** The condition built from a group row. *)
Definition dir_query (mg : Movie.t) : Movie.t :=
  Movie.mk 0 (Movie.DirPath mg) (Movie.DirName mg) "" 0 "" "" "" false false.

Definition hit_by_groups (gs rows : list Movie.t) (i : N) : bool :=
  existsb (fun g => hit_by (Gorm.Where (dir_query g) rows) i) gs.

(** Two rows at different positions of the table that both lie in the
    directory (name and path) of [m]. *)
Definition two_in_dir_of (m : Movie.t) (rows : list Movie.t) : Prop :=
  exists (i j : nat) (r1 r2 : Movie.t),
    i <> j /\ rows !! i = Some r1 /\ rows !! j = Some r2 /\
    Movie.DirName r1 = Movie.DirName m /\ Movie.DirPath r1 = Movie.DirPath m /\
    Movie.DirName r2 = Movie.DirName m /\ Movie.DirPath r2 = Movie.DirPath m.

(** Keys are set and distinct, as the store hands them out; directory
    names and paths are not empty. *)
Definition well_keyed (rows : list Movie.t) : Prop :=
  NoDup (map Movie.ID rows) /\
  Forall (fun r => Movie.ID r <> 0%N /\ Movie.DirName r <> "" /\ Movie.DirPath r <> "") rows.

(** What ingestion keeps true of the table of movies. *)
Definition fresh_table (rows : list Movie.t) : Prop :=
  well_keyed rows /\ Forall (fun r => Movie.IsGroupDir r = false) rows.

End Detect.

(** ** Notions used to state the order of the shutdown *)

Module Progress.

Import Lifecycle.

(** How far each thread has come. *)
Definition mrank (m : MainPc) : nat :=
  match m with
  | MGo => 0 | MLogActivate => 1 | MLogAlive => 2 | MShowIP => 3 | MListen => 4
  | MServing => 5 | MLogServeError => 6 | MWaitDone => 7 | MCleanup => 8
  | MLogClosed => 9 | MExit => 10
  end.

Definition wrank (k : WatcherPc) : nat :=
  match k with
  | WNotStarted => 0 | WRecvSignal => 1 | WLogShutting => 2 | WWithTimeout => 3
  | WKeepAlives => 4 | WShutdown => 5 | WInShutdown => 6 | WLogError => 7
  | WSendDone => 8 | WCancel => 9 | WDone => 10
  end.

(** The number of thread steps still ahead, at most. *)
Definition remaining (s : State) : nat :=
  (10 - mrank (mpc s)) + (10 - wrank (wpc s)).

Definition is_thread_step (l : Label) : bool :=
  match l with
  | Interrupt => false
  | _ => true
  end.

Definition thread_steps (ls : list Label) : nat :=
  length (List.filter is_thread_step ls).

Definition shutdown_returned (a : Event) : Prop :=
  exists r, a = EvShutdownReturned r.

Definition shutdown_called (a : Event) : Prop :=
  exists d, a = EvShutdownCalled d.

(** What holds in every state the two threads can reach from [start f]. *)
Record Inv (w : World) (f : FS) (s : State) : Prop := {
  inv_spawn : 1 <= mrank (mpc s) <-> 1 <= wrank (wpc s);
  inv_spawn_ev : 1 <= wrank (wpc s) -> In EvSpawn (trace s);
  inv_observed : 2 <= wrank (wpc s) -> In EvSignalObserved (trace s);
  inv_called : 6 <= wrank (wpc s) -> In (EvShutdownCalled (Second * 30)) (trace s);
  inv_inShutdown : inShutdown s = true <-> 6 <= wrank (wpc s);
  inv_not_returned :
    wrank (wpc s) <= 6 -> forall r, ~ In (EvShutdownReturned r) (trace s);
  inv_returned :
    7 <= wrank (wpc s) -> exists r, In (EvShutdownReturned r) (trace s);
  inv_logged :
    8 <= wrank (wpc s) ->
    forall e, In (EvShutdownReturned (Some e)) (trace s) ->
              In (EvLog Error "Couldn't gracefully shutdown") (trace s);
  inv_done : 9 <= wrank (wpc s) -> In EvServerDone (trace s);
  inv_handoff : 8 <= mrank (mpc s) <-> 9 <= wrank (wpc s);
  inv_serving : 5 <= mrank (mpc s) -> In EvListenAndServe (trace s);
  inv_removed :
    9 <= mrank (mpc s) ->
    In (EvRemoveAll (getAppDir w)) (trace s) /\ fs s = after_cleanup w f;
  inv_fs : mrank (mpc s) < 9 -> fs s = f;
  inv_deadline : forall d, In (EvShutdownCalled d) (trace s) -> d = (Second * 30)%Z;
  ord_observed : preceded_by (eq EvSpawn) EvSignalObserved (trace s);
  ord_called :
    forall d, preceded_by (eq EvSignalObserved) (EvShutdownCalled d) (trace s);
  ord_returned :
    forall r, preceded_by shutdown_called (EvShutdownReturned r) (trace s);
  ord_done : preceded_by shutdown_returned EvServerDone (trace s);
  ord_removed : forall p, preceded_by (eq EvServerDone) (EvRemoveAll p) (trace s) }.

End Progress.

(** ** Notions used to state what start-up and ingestion leave behind *)

(** The file system an outcome ends with. *)
Definition final_fs {A : Type} (o : outcome A) : FS :=
match o with
| Running _ fs => fs
| Halted _ fs => fs
end.

Module Ingested.

(** The row [saveMovies] stores for one scanned movie. *)
Definition movie_row (Parse : string -> TorrentInfo * option string)
  (e : MovieDirInfo) (r : Movie.t) : Prop :=
Movie.DirPath r = Dir e /\
Movie.DirName r = Filepath.Base (Dir e) /\
Movie.CleanDirName r
  = match snd (Parse (Filepath.Base (Dir e))) with
    | None => Title (fst (Parse (Filepath.Base (Dir e))))
    | Some _ => ""
    end /\
Movie.FileSize r = MovieSize e /\
Movie.BaseName r = MovieFile e /\
Movie.MimeType r = MimeType e /\
Movie.IsGroupDir r = false /\
Movie.IsPrepared r = false.

(** The row [saveSubs] stores for one scanned subtitle. *)
Definition sub_row (Parse : string -> TorrentInfo * option string)
  (e : SubDirInfo) (r : Subtitle.t) : Prop :=
Subtitle.DirPath r = SubDir e /\
Subtitle.DirName r = Filepath.Base (SubDir e) /\
Subtitle.CleanDirName r
  = match snd (Parse (Filepath.Base (SubDir e))) with
    | None => Title (fst (Parse (Filepath.Base (SubDir e))))
    | Some _ => ""
    end /\
Subtitle.BaseName r = SubFile e.

(** A directory name as [filepath.Base] yields it: not empty, and without
    a separator unless it is the root. *)
Definition base_shaped (name : string) : Prop :=
name <> "" /\ (Filepath.has_sep name = false \/ name = "/").

(** The directory (name and path) of a row. *)
Definition dir_of (r : Movie.t) : string * string :=
(Movie.DirName r, Movie.DirPath r).

End Ingested.

(** ** Further sample worlds *)

Module Scenario.

(** A file system with the store of an earlier run and a file that has
    nothing to do with the program. *)
Definition fs_with_other_files : FS :=
<[ "/home/u/notes.txt" := FFile empty_catalog ]> Sample.fs_with_old_store.


(** A world in which [os.Stat] fails on every path. *)
Definition world_stat_fails : World := {|
  UserCacheDir := UserCacheDir Sample.world;
  stat_error := fun _ => true;
  mkdirall_error := Sample.no_error;
  remove_error := Sample.no_error;
  create_error := Sample.no_error;
  removeall_error := Sample.no_error;
  LookPath := LookPath Sample.world;
  OpenDB_error := OpenDB_error Sample.world;
  ScanDir := ScanDir Sample.world |}.

(** A key with blanks around it. *)
Definition args_padded_key : CommandLine := {|
  opt_path := Some "/movies";
  opt_port := None;
  opt_tmdb_key := Some "  k3y ";
  opt_resolution := [] |}.

(** A world in which the scan of the movie directory fails. *)
Definition world_scan_fails : World := {|
  UserCacheDir := UserCacheDir Sample.world;
  stat_error := Sample.no_error;
  mkdirall_error := Sample.no_error;
  remove_error := Sample.no_error;
  create_error := Sample.no_error;
  removeall_error := Sample.no_error;
  LookPath := LookPath Sample.world;
  OpenDB_error := OpenDB_error Sample.world;
  ScanDir := fun _ => Err "permission denied" |}.

(** A table with two series of two episodes each and a single film; the
    first episode carries a flag from an earlier pass. *)
Definition two_series : list Movie.t :=
[ Movie.mk 1 "/m/A" "A" "A" 1 "a1.mkv" "a1" "video/x-matroska" true false;
  Movie.mk 2 "/m/B" "B" "B" 1 "b1.mkv" "b1" "video/x-matroska" false false;
  Movie.mk 3 "/m/A" "A" "A" 1 "a2.mkv" "a2" "video/x-matroska" false false;
  Movie.mk 4 "/m/F" "F" "F" 1 "f.mkv" "f" "video/x-matroska" false false;
  Movie.mk 5 "/m/B" "B" "B" 1 "b2.mkv" "b2" "video/x-matroska" false true ].

(** A table with two films in two directories of the same name. *)
Definition two_films : list Movie.t :=
[ Movie.mk 1 "/m/x/Film" "Film" "Film" 1 "f.mkv" "f" "video/x-matroska" false false;
  Movie.mk 2 "/m/y/Film" "Film" "Film" 1 "f.mkv" "f" "video/x-matroska" false false ].

Definition args_without_path : CommandLine := {|
  opt_path := None;
  opt_port := None;
  opt_tmdb_key := Some "k3y";
  opt_resolution := [] |}.

End Scenario.

(** ** Further notions about the shutdown *)

Module Watch.

Import Lifecycle Progress.

Definition is_shutdown_call (a : Event) : bool :=
match a with
| EvShutdownCalled _ => true
| _ => false
end.

Definition is_removal (a : Event) : bool :=
match a with
| EvRemoveAll _ => true
| _ => false
end.

Definition is_done (a : Event) : bool :=
match a with
| EvServerDone => true
| _ => false
end.

(** How often an event of one kind occurs in a history. *)
Definition count (P : Event -> bool) (tr : list Event) : nat :=
length (List.filter P tr).

Definition serve_returned (a : Event) : Prop :=
exists e, a = EvServeReturned e.

(** An interrupt is waiting in [closeSignal] or has been taken out of it. *)
Definition interrupted (s : State) : Prop :=
closeSignal s = true \/ 2 <= wrank (wpc s).

(** More of what holds in every reachable state. *)
Record Inv2 (s : State) : Prop := {
  w_interrupted_in : interrupted s -> In EvInterrupt (trace s);
  w_in_interrupted : In EvInterrupt (trace s) -> interrupted s;
  w_served : 6 <= mrank (mpc s) -> exists e, In (EvServeReturned e) (trace s);
  w_keepalive : 5 <= wrank (wpc s) -> In (EvSetKeepAlivesEnabled false) (trace s);
  w_calls :
    count is_shutdown_call (trace s) = if Nat.leb 6 (wrank (wpc s)) then 1 else 0;
  w_removals : count is_removal (trace s) = if Nat.leb 9 (mrank (mpc s)) then 1 else 0;
  w_dones : count is_done (trace s) = if Nat.leb 9 (wrank (wpc s)) then 1 else 0;
  w_ord_served : forall p, preceded_by serve_returned (EvRemoveAll p) (trace s);
  w_ord_closed :
    preceded_by shutdown_called (EvServeReturned ErrServerClosed) (trace s);
  w_ord_keepalive :
    forall d, preceded_by (eq (EvSetKeepAlivesEnabled false)) (EvShutdownCalled d)
                (trace s) }.

End Watch.

(** ** Further sample runs of the shutdown *)

Module Runs.

(** Five steps of [main]: the watcher is started and [ListenAndServe] is
    running; no interrupt yet. *)
Definition until_serving : list Lifecycle.Label :=
[ Lifecycle.Main; Lifecycle.Main; Lifecycle.Main; Lifecycle.Main; Lifecycle.Main ].

Definition serving : Lifecycle.State :=
Eval vm_compute in
  match Lifecycle.run Sample.world 1818 until_serving
          (Lifecycle.start Sample.fs_with_old_store) with
  | Some s => s
  | None => Lifecycle.start ∅
  end.

(** The port is taken: [ListenAndServe] returns an error, [main] logs it. *)
Definition serve_fails : list Lifecycle.Label :=
(until_serving
 ++ [ Lifecycle.ServeError "listen tcp :1818: bind: address already in use";
      Lifecycle.Main ])%list.

Definition failed_to_serve : Lifecycle.State :=
Eval vm_compute in
  match Lifecycle.run Sample.world 1818 serve_fails
          (Lifecycle.start Sample.fs_with_old_store) with
  | Some s => s
  | None => Lifecycle.start ∅
  end.

(** The state of the run [Sample.early_interrupt] after its second step:
    the watcher is started and an interrupt waits in [closeSignal]. *)
Definition interrupted_early : Lifecycle.State :=
Eval vm_compute in
  match Lifecycle.run Sample.world 1818 (firstn 2 Sample.early_interrupt)
          (Lifecycle.start ∅) with
  | Some s => s
  | None => Lifecycle.start ∅
  end.

(** A complete run with three interrupts: before the watcher takes the
    first, while the stop is under way, and after it. *)
Definition three_interrupts : list Lifecycle.Label :=
[ Lifecycle.Main; Lifecycle.Main; Lifecycle.Main; Lifecycle.Main; Lifecycle.Main;
  Lifecycle.Interrupt; Lifecycle.Interrupt;
  Lifecycle.Watcher; Lifecycle.Watcher; Lifecycle.Watcher; Lifecycle.Watcher;
  Lifecycle.Interrupt;
  Lifecycle.Watcher; Lifecycle.ShutdownOk; Lifecycle.Interrupt;
  Lifecycle.Main; Lifecycle.Watcher; Lifecycle.Main; Lifecycle.Main ].

Definition stopped_after_three : Lifecycle.State :=
Eval vm_compute in
  match Lifecycle.run Sample.world 1818 three_interrupts (Lifecycle.start ∅) with
  | Some s => s
  | None => Lifecycle.start ∅
  end.

End Runs.

(** * Properties *)

(** ** Paths *)

Example Base_file : Filepath.Base "/foo/bar/baz.js" = "baz.js".
Proof. reflexivity. Qed.
Example Base_trailing : Filepath.Base "/foo/bar/baz/" = "baz".
Proof. reflexivity. Qed.
Example Base_root : Filepath.Base "///" = "/".
Proof. reflexivity. Qed.
Example Base_empty : Filepath.Base "" = ".".
Proof. reflexivity. Qed.
Example Clean_dotdot : Filepath.Clean "abc/def/../ghi/../jkl" = "abc/jkl".
Proof. reflexivity. Qed.
Example Clean_rooted_up : Filepath.Clean "/abc/def/../../.." = "/".
Proof. reflexivity. Qed.
Example Clean_up_up : Filepath.Clean "abc/../../././../def" = "../../def".
Proof. reflexivity. Qed.
Example Join_rooted : Filepath.Join ["/home/u/.cache"; "voodioapp"] = "/home/u/.cache/voodioapp".
Proof. reflexivity. Qed.

Lemma Base_nonempty (p : string) : Filepath.Base p <> "".
Proof.
  unfold Filepath.Base. destruct p; [discriminate|].
  destruct (Filepath.after_last_sep _); discriminate.
Qed.

(** C10. The error of [os.UserCacheDir] never reaches the program: when the
    call fails the working directory is the relative path [voodioapp], the
    store is [voodioapp/voodio.db], and the whole start-up behaves as in a
    world where the call succeeded with the empty string; no abort comes
    from the failure. *)
Theorem cache_dir_error_is_dropped (w : World) (e : string) :
  UserCacheDir w = Err e ->
  getAppDir w = "voodioapp" /\
  getDBPath w = "voodioapp/voodio.db" /\
  (forall P T cl fs,
      startup w P T cl fs = startup (with_UserCacheDir (Ok "") w) P T cl fs).
Proof.
  intros He.
  assert (Hc : cacheDir w = "") by (unfold cacheDir; now rewrite He).
  assert (Ha : getAppDir w = "voodioapp") by (unfold getAppDir; now rewrite Hc).
  assert (Hd : getDBPath w = "voodioapp/voodio.db") by (unfold getDBPath; now rewrite Ha).
  repeat split; trivial.
  intros P T cl fs.
  unfold startup, init, createAppDir, removeObsoleteDB, createDBFile, main_setup,
    cleanup, checkFfmpegInstalled, Os.Stat, Os.MkdirAll, Os.Remove, Os.Create, Os.RemoveAll.
  rewrite Ha, Hd. reflexivity.
Qed.

Lemma cache_dir_error_is_dropped_witness :
  UserCacheDir Sample.world_no_cache
    = Err "neither $XDG_CACHE_HOME nor $HOME are defined" /\
  getAppDir Sample.world_no_cache = "voodioapp".
Proof.
  split; [reflexivity|].
  apply (cache_dir_error_is_dropped Sample.world_no_cache
           "neither $XDG_CACHE_HOME nor $HOME are defined").
  reflexivity.
Defined.

(** With no cache directory the start-up still runs to the end, in the
    relative directory. *)
Example startup_without_cache_dir :
  exists cfg fs,
    startup Sample.world_no_cache Sample.Parse Sample.TrimSpace Sample.args ∅
      = Running cfg fs /\
    AppDir cfg = "voodioapp" /\ Os.is_dir fs "voodioapp" = true.
Proof. eexists _, _. vm_compute. repeat split. Qed.

(** ** Start-up *)

Lemma bind_Running {A B : Type} (c : Proc A) (k : A -> Proc B) fs b fs' :
  (c ≫= k) fs = Running b fs' ->
  exists a fs1, c fs = Running a fs1 /\ k a fs1 = Running b fs'.
Proof.
  unfold mbind, Proc_bind. destruct (c fs) as [a fs1|]; [eauto|discriminate].
Qed.

Lemma removeObsoleteDB_gone w fs fs' :
  removeObsoleteDB w fs = Running tt fs' -> fs' !! getDBPath w = None.
Proof.
  unfold removeObsoleteDB, Os.Stat, Os.Remove, panic.
  destruct (stat_error w (getDBPath w)); simpl.
  - destruct (remove_error w _); [discriminate|].
    destruct (fs !! getDBPath w) as [[|c]|] eqn:E; try discriminate.
    + destruct (Os.has_children _ _); [discriminate|].
      intros [= <-]. apply lookup_delete_eq.
    + intros [= <-]. apply lookup_delete_eq.
  - destruct (fs !! getDBPath w) as [n|] eqn:E; simpl.
    + destruct (remove_error w _); [discriminate|].
      destruct n.
      * destruct (Os.has_children _ _); [discriminate|].
        intros [= <-]. apply lookup_delete_eq.
      * intros [= <-]. apply lookup_delete_eq.
    + now intros [= <-].
Qed.

Lemma createDBFile_empty w fs fs' :
  createDBFile w fs = Running tt fs' ->
  fs' !! getDBPath w = Some (FFile empty_catalog).
Proof.
  unfold createDBFile, Os.Create, os_Exit.
  destruct (create_error w _); [discriminate|].
  destruct (Os.is_dir fs _); [discriminate|].
  destruct (Os.parent _) as [up|].
  - destruct (Os.is_dir fs up); [|discriminate].
    intros [= <-]. apply lookup_insert_eq.
  - intros [= <-]. apply lookup_insert_eq.
Qed.

Lemma db_read_insert p c fs : db_read p (<[p := FFile c]> fs) = c.
Proof. unfold db_read. now rewrite lookup_insert_eq. Qed.

Lemma parse_resolutions (tokens : list string) (acc : resolutionParam) :
  fold_left (fun r p => fst (resolutionParam_Set r p)) tokens acc = (acc ++ tokens)%list.
Proof.
  revert acc. induction tokens as [|t ts IH]; intros acc; simpl.
  - now rewrite app_nil_r.
  - rewrite IH. unfold resolutionParam_Set. simpl. now rewrite <- app_assoc.
Qed.

Lemma main_setup_Running w P T cl fs cfg fs' :
  main_setup w P T cl fs = Running cfg fs' ->
  exists movies subs,
    ScanDir w (default "" (opt_path cl)) = Ok (movies, subs) /\
    cfg = {| DB := getDBPath w;
             Port := default 1818%Z (opt_port cl);
             AppDir := getAppDir w;
             TMDBApiKey := default "" (opt_tmdb_key cl);
             ScreenResolutions :=
               match opt_resolution cl with
               | [] => default_resolutions
               | _ => opt_resolution cl
               end |} /\
    fs' = <[getDBPath w :=
              FFile (detectGroups
                       (saveSubs P subs (saveMovies P movies (db_read (getDBPath w) fs))))]> fs.
Proof.
  unfold main_setup.
  destruct (Nat.eqb (String.length _) 0).
  { unfold mbind, Proc_bind, cleanup, panic.
    destruct (Os.RemoveAll _ _ _); discriminate. }
  destruct (negb _); [discriminate|].
  destruct (Nat.eqb (String.length _) 0).
  { unfold mbind, Proc_bind, cleanup, panic.
    destruct (Os.RemoveAll _ _ _); discriminate. }
  destruct (OpenDB_error _ _).
  { unfold mbind, Proc_bind, cleanup, panic.
    destruct (Os.RemoveAll _ _ _); discriminate. }
  destruct (ScanDir _ _) as [[movies subs]|e].
  2:{ unfold mbind, Proc_bind, cleanup, panic.
      destruct (Os.RemoveAll _ _ _); discriminate. }
  unfold mbind, Proc_bind, db_exec, mret, Proc_ret.
  intros [= <- <-]. exists movies, subs. split; [reflexivity|]. split.
  - f_equal. rewrite parse_resolutions. simpl.
    now destruct (opt_resolution cl).
  - rewrite !db_read_insert. rewrite !insert_insert_eq. reflexivity.
Qed.

(** C9. A run that gets as far as building the server has, in [init],
    removed whatever was at the path of the store and created the file
    anew and empty; the catalog it then serves is the one its own scan
    produces from the empty catalog, whatever the file held before. *)
Theorem store_rebuilt_each_run w P T cl fs cfg fs' :
  startup w P T cl fs = Running cfg fs' ->
  exists fs1 fs2 fs3 movies subs,
    createAppDir w fs = Running tt fs1 /\
    removeObsoleteDB w fs1 = Running tt fs2 /\
    fs2 !! getDBPath w = None /\
    createDBFile w fs2 = Running tt fs3 /\
    fs3 !! getDBPath w = Some (FFile empty_catalog) /\
    ScanDir w (default "" (opt_path cl)) = Ok (movies, subs) /\
    db_read (DB cfg) fs'
      = detectGroups (saveSubs P subs (saveMovies P movies empty_catalog)).
Proof.
  unfold startup, init. intros H.
  apply bind_Running in H as ([] & fs3 & H & Hm).
  apply bind_Running in H as ([] & fs1 & H1 & H).
  apply bind_Running in H as ([] & fs2 & H2 & H3).
  apply main_setup_Running in Hm as (movies & subs & Hs & -> & ->).
  exists fs1, fs2, fs3, movies, subs.
  pose proof (createDBFile_empty _ _ _ H3) as Hc.
  repeat split; trivial.
  - eapply removeObsoleteDB_gone; eauto.
  - simpl. rewrite db_read_insert. unfold db_read at 1. now rewrite Hc.
Qed.

Lemma store_rebuilt_each_run_witness :
  exists cfg fs',
    startup Sample.world Sample.Parse Sample.TrimSpace Sample.args Sample.fs_with_old_store
      = Running cfg fs' /\
    db_read (DB cfg) fs'
      = detectGroups
          (saveSubs Sample.Parse (snd Sample.scan)
             (saveMovies Sample.Parse (fst Sample.scan) empty_catalog)).
Proof.
  eexists _, _. split; [vm_compute; reflexivity|].
  edestruct (store_rebuilt_each_run Sample.world Sample.Parse Sample.TrimSpace Sample.args
               Sample.fs_with_old_store) as (fs1 & fs2 & fs3 & ms & ss & _ & _ & _ & _ & _ & Hs & Hr).
  { vm_compute; reflexivity. }
  injection Hs as <- <-.
  exact Hr.
Defined.

(** C8. The server is built with the four standard resolutions when the
    command line names none, and with exactly the given tokens, in the
    order given, when it names some. *)
Theorem resolutions_default_or_given w P T cl fs cfg fs' :
  main_setup w P T cl fs = Running cfg fs' ->
  (opt_resolution cl = [] ->
   ScreenResolutions cfg = ["360p"; "480p"; "720p"; "1080p"]) /\
  (opt_resolution cl <> [] -> ScreenResolutions cfg = opt_resolution cl).
Proof.
  intros H. apply main_setup_Running in H as (movies & subs & _ & -> & _).
  simpl. split.
  - now intros ->.
  - intros Hne. now destruct (opt_resolution cl).
Qed.

Lemma resolutions_default_or_given_witness :
  exists cfg fs',
    main_setup Sample.world Sample.Parse Sample.TrimSpace Sample.args ∅ = Running cfg fs' /\
    ScreenResolutions cfg = ["360p"; "480p"; "720p"; "1080p"].
Proof.
  eexists _, _. split; [vm_compute; reflexivity|].
  refine (proj1 (resolutions_default_or_given Sample.world Sample.Parse Sample.TrimSpace
                   Sample.args ∅ _ _ _) _).
  - vm_compute; reflexivity.
  - reflexivity.
Defined.

Example resolutions_given :
  exists cfg fs',
    main_setup Sample.world Sample.Parse Sample.TrimSpace
      {| opt_path := Some "/movies"; opt_port := Some 8080%Z;
         opt_tmdb_key := Some "k3y"; opt_resolution := ["720p"; "360p"; "720p"] |} ∅
      = Running cfg fs' /\
    ScreenResolutions cfg = ["720p"; "360p"; "720p"] /\ Port cfg = 8080%Z.
Proof. eexists _, _. vm_compute. repeat split. Qed.

(** ** Aborts of the set-up *)

Lemma clean_elem_nonempty rooted out e :
  Forall (fun x => x <> "") out -> Forall (fun x => x <> "") (Filepath.clean_elem rooted out e).
Proof.
  intros H. unfold Filepath.clean_elem.
  repeat case_decide; subst; trivial.
  - destruct out as [|top rest]; [destruct rooted; auto|].
    case_decide; [auto|]. now inversion H.
  - auto.
Qed.

Lemma concat_nonempty (x : string) (xs : list string) :
  x <> "" -> String.concat "/" (x :: xs) <> "".
Proof.
  intros Hx. simpl. destruct xs; [exact Hx|].
  destruct x; [congruence|discriminate].
Qed.

Lemma Clean_nonempty (p : string) : Filepath.Clean p <> "".
Proof.
  unfold Filepath.Clean. destruct p as [|c p]; [discriminate|].
  destruct (Filepath.IsPathSeparator c); [discriminate|].
  assert (H : Forall (fun x => x <> "")
                (rev (fold_left (Filepath.clean_elem false) (Filepath.split_sep (String c p)) []))).
  { apply Forall_rev.
    generalize (Filepath.split_sep (String c p)).
    assert (Hnil : Forall (fun x : string => x <> "") []) by constructor.
    revert Hnil. generalize (@nil string).
    intros acc Hacc l. revert acc Hacc.
    induction l as [|e l IH]; intros acc Hacc; simpl; [exact Hacc|].
    apply IH. now apply clean_elem_nonempty. }
  destruct (rev _) as [|x xs]; [discriminate|].
  apply concat_nonempty. now inversion H.
Qed.

Lemma getAppDir_nonempty (w : World) : getAppDir w <> "".
Proof.
  unfold getAppDir. simpl. case_decide; [discriminate|]. apply Clean_nonempty.
Qed.

Lemma under_self (p : string) : Os.under p p = true.
Proof. unfold Os.under. now rewrite String.eqb_refl. Qed.

(** What [cleanup] leaves when [os.RemoveAll] does not fail: nothing at the
    working directory and nothing below it. *)
Lemma cleanup_removes w fs :
  removeall_error w (getAppDir w) = false ->
  exists fs', cleanup w fs = Running tt fs' /\
    forall k, Os.under (getAppDir w) k = true -> fs' !! k = None.
Proof.
  intros Hok. unfold cleanup, Os.RemoveAll.
  case_decide as Hp; [now apply getAppDir_nonempty in Hp|].
  rewrite Hok. eexists. split; [reflexivity|].
  intros k Hk. apply map_lookup_filter_None. right. intros x _. simpl. congruence.
Qed.

(** Every abort of the set-up but one calls [cleanup] first; the one that
    does not is the ffmpeg check. *)
Lemma main_setup_Halted w P T cl fs e fs' :
  main_setup w P T cl fs = Halted e fs' ->
  (checkFfmpegInstalled w = false /\ fs' = fs /\
   e = Panic "sorry, you haven't install ffmpeg, INSTALL FFMPEG first!")
  \/ cleanup w fs = Running tt fs'.
Proof.
  assert (Hc : forall msg, (cleanup w ≫= fun _ => panic (A:=ServerConfig) msg) fs = Halted e fs' ->
                           cleanup w fs = Running tt fs').
  { intros msg. unfold mbind, Proc_bind, cleanup, panic.
    destruct (Os.RemoveAll _ _ _); now intros [= _ <-]. }
  unfold main_setup.
  destruct (Nat.eqb (String.length _) 0); [intros H; right; eapply Hc, H|].
  destruct (checkFfmpegInstalled w); simpl.
  2:{ unfold panic. intros [= <- <-]. now left. }
  destruct (Nat.eqb (String.length _) 0); [intros H; right; eapply Hc, H|].
  destruct (OpenDB_error _ _); [intros H; right; eapply Hc, H|].
  destruct (ScanDir _ _) as [[movies subs]|]; [|intros H; right; eapply Hc, H].
  discriminate.
Qed.

(** Without ffmpeg the set-up halts with the file system as it found it. *)
Lemma main_setup_no_ffmpeg w P T cl fs :
  default "" (opt_path cl) <> "" ->
  checkFfmpegInstalled w = false ->
  main_setup w P T cl fs
    = Halted (Panic "sorry, you haven't install ffmpeg, INSTALL FFMPEG first!") fs.
Proof.
  intros Hp Hf. unfold main_setup. rewrite Hf.
  destruct (default "" (opt_path cl)); [congruence|]. reflexivity.
Qed.

(** C5, at the input where it fails: ffmpeg is not installed. The process
    panics and the working directory with its store is still there. *)
Theorem no_ffmpeg_abort_keeps_working_dir :
  exists fs',
    startup Sample.world_no_ffmpeg Sample.Parse Sample.TrimSpace Sample.args ∅
      = Halted (Panic "sorry, you haven't install ffmpeg, INSTALL FFMPEG first!") fs' /\
    fs' !! getAppDir Sample.world_no_ffmpeg = Some FDir /\
    fs' !! getDBPath Sample.world_no_ffmpeg = Some (FFile empty_catalog).
Proof.
  eexists. split.
  - unfold startup, mbind, Proc_bind.
    replace (init Sample.world_no_ffmpeg ∅)
      with (Running tt (<["/home/u/.cache/voodioapp/voodio.db" := FFile empty_catalog]>
                           (<["/home/u/.cache/voodioapp" := FDir]>
                              (<["/home/u/.cache" := FDir]>
                                 (<["/home/u" := FDir]> (<["/home" := FDir]> (∅ : FS)))))))
      by (vm_compute; reflexivity).
    apply main_setup_no_ffmpeg; [discriminate|reflexivity].
  - split; vm_compute; reflexivity.
Qed.

(** The other aborts of C5 do remove the working directory (when
    [os.RemoveAll] itself does not fail). *)
Lemma other_aborts_remove_working_dir w P T cl fs e fs' :
  main_setup w P T cl fs = Halted e fs' ->
  checkFfmpegInstalled w = true ->
  removeall_error w (getAppDir w) = false ->
  fs' !! getAppDir w = None.
Proof.
  intros H Hf Hr. apply main_setup_Halted in H as [(Hf' & _)|H]; [congruence|].
  destruct (cleanup_removes w fs Hr) as (fs1 & H1 & Hgone).
  rewrite H in H1. injection H1 as <-.
  apply Hgone, under_self.
Qed.

(** ** The duplicate-directory pass *)

Section DetectFacts.

Import Detect.

Lemma flag_row_mark rows m :
  flag_row rows m = mark (fun i => N.eqb (Movie.ID m) 0 || N.eqb i (Movie.ID m)) rows.
Proof.
  unfold flag_row, Gorm.Update, mark. apply map_ext. intros r.
  unfold Gorm.targets. destruct (_ || _); [|reflexivity].
  unfold Gorm.assign, flagged. simpl.
  unfold Gorm.set_Z. simpl. reflexivity.
Qed.

Lemma flagged_ID r : Movie.ID (flagged r) = Movie.ID r.
Proof. reflexivity. Qed.

Lemma flagged_flagged r : flagged (flagged r) = flagged r.
Proof. reflexivity. Qed.

Lemma mark_ext h h' rows : (forall i, h i = h' i) -> mark h rows = mark h' rows.
Proof. intros H. unfold mark. apply map_ext. intros r. now rewrite H. Qed.

Lemma mark_mark h1 h2 rows :
  mark h2 (mark h1 rows) = mark (fun i => h1 i || h2 i) rows.
Proof.
  unfold mark. rewrite map_map. apply map_ext. intros r.
  destruct (h1 (Movie.ID r)) eqn:E1; simpl.
  - now destruct (h2 (Movie.ID r)).
  - reflexivity.
Qed.

Lemma mark_none rows : mark (fun _ => false) rows = rows.
Proof. unfold mark. induction rows; simpl; congruence. Qed.

Lemma fold_flag_row ms rows :
  fold_left flag_row ms rows = mark (hit_by ms) rows.
Proof.
  revert rows. induction ms as [|m ms IH]; intros rows; simpl.
  - now rewrite mark_none.
  - rewrite IH, flag_row_mark, mark_mark. reflexivity.
Qed.

(** Marking changes neither keys nor directories, so every query of the
    pass sees the same rows before and after. *)
Lemma matches_dir_query_flag g (h : bool) r :
  Gorm.matches (dir_query g) (if h then flagged r else r) = Gorm.matches (dir_query g) r.
Proof. now destruct h. Qed.

Lemma Where_mark_ids g h rows :
  map Movie.ID (Gorm.Where (dir_query g) (mark h rows))
    = map Movie.ID (Gorm.Where (dir_query g) rows).
Proof.
  unfold Gorm.Where, mark. induction rows as [|r rows IH]; simpl; [reflexivity|].
  rewrite matches_dir_query_flag.
  destruct (Gorm.matches _ r); simpl; [|exact IH].
  rewrite IH. now destruct (h (Movie.ID r)).
Qed.

Lemma hit_by_ids ms ms' i :
  map Movie.ID ms = map Movie.ID ms' -> hit_by ms i = hit_by ms' i.
Proof.
  revert ms'. induction ms as [|m ms IH]; intros [|m' ms']; simpl; try discriminate; trivial.
  intros [= -> H]. now rewrite (IH _ H).
Qed.

Lemma hit_by_groups_mark gs h rows i :
  hit_by_groups gs (mark h rows) i = hit_by_groups gs rows i.
Proof.
  unfold hit_by_groups. induction gs as [|g gs IH]; simpl; [reflexivity|].
  rewrite IH. f_equal. apply hit_by_ids, Where_mark_ids.
Qed.

Lemma flag_group_mark rows g :
  flag_group rows g = mark (hit_by (Gorm.Where (dir_query g) rows)) rows.
Proof. unfold flag_group. apply fold_flag_row. Qed.

Lemma fold_flag_group gs rows :
  fold_left flag_group gs rows = mark (hit_by_groups gs rows) rows.
Proof.
  revert rows. induction gs as [|g gs IH]; intros rows; simpl.
  - now rewrite mark_none.
  - rewrite IH, flag_group_mark, mark_mark.
    apply mark_ext. intros i. now rewrite hit_by_groups_mark.
Qed.

Lemma same_dir_flag g (h : bool) r :
  Gorm.same_dir g (if h then flagged r else r) = Gorm.same_dir g r.
Proof. now destruct h. Qed.

Lemma count_dir_mark g h rows : Gorm.count_dir g (mark h rows) = Gorm.count_dir g rows.
Proof.
  unfold Gorm.count_dir, mark. induction rows as [|r rows IH]; simpl; [reflexivity|].
  rewrite same_dir_flag. destruct (Gorm.same_dir g r); simpl; congruence.
Qed.

Lemma group_by_dir_mark h rows : Gorm.group_by_dir (mark h rows) = Gorm.group_by_dir rows.
Proof.
  unfold mark. induction rows as [|r rows IH]; simpl; [reflexivity|].
  rewrite IH. destruct (h (Movie.ID r)); reflexivity.
Qed.

Lemma duplicate_dirs_mark h rows : Gorm.duplicate_dirs (mark h rows) = Gorm.duplicate_dirs rows.
Proof.
  unfold Gorm.duplicate_dirs. rewrite group_by_dir_mark.
  apply filter_ext. intros g. now rewrite count_dir_mark.
Qed.

(** The pass in one formula. *)
Lemma detectGroups_mark c :
  movies (detectGroups c)
    = mark (hit_by_groups (Gorm.duplicate_dirs (movies c)) (movies c)) (movies c).
Proof. unfold detectGroups. simpl. apply fold_flag_group. Qed.

End DetectFacts.

(** C3. Running the pass a second time changes nothing: the catalog after
    two runs is the catalog after one, for every catalog. *)
Theorem detectGroups_idempotent (c : Catalog) :
  detectGroups (detectGroups c) = detectGroups c.
Proof.
  destruct c as [rows subs].
  assert (H : movies (detectGroups (detectGroups (mkCatalog rows subs)))
              = movies (detectGroups (mkCatalog rows subs))).
  { rewrite (detectGroups_mark (detectGroups _)), detectGroups_mark. simpl.
    rewrite duplicate_dirs_mark, mark_mark.
    apply mark_ext. intros i. rewrite hit_by_groups_mark. apply orb_diag. }
  unfold detectGroups in *. simpl in *. now rewrite H.
Qed.

Section GroupFlag.

Import Detect.

Lemma same_dir_true a b :
  Gorm.same_dir a b = true <->
  Movie.DirName a = Movie.DirName b /\ Movie.DirPath a = Movie.DirPath b.
Proof.
  unfold Gorm.same_dir. rewrite andb_true_iff, !String.eqb_eq. reflexivity.
Qed.

Lemma same_dir_refl a : Gorm.same_dir a a = true.
Proof. now apply same_dir_true. Qed.

Lemma same_dir_cong a a' b :
  Movie.DirName a = Movie.DirName a' -> Movie.DirPath a = Movie.DirPath a' ->
  Gorm.same_dir a b = Gorm.same_dir a' b.
Proof. unfold Gorm.same_dir. now intros -> ->. Qed.

Lemma count_dir_cong a a' rows :
  Movie.DirName a = Movie.DirName a' -> Movie.DirPath a = Movie.DirPath a' ->
  Gorm.count_dir a rows = Gorm.count_dir a' rows.
Proof.
  intros Hn Hp. unfold Gorm.count_dir. f_equal.
  apply filter_ext. intros b. now apply same_dir_cong.
Qed.

(** Counting through positions. *)
Lemma filter_nonempty {A} (f : A -> bool) (l : list A) (j : nat) (y : A) :
  l !! j = Some y -> f y = true -> 1 <= length (List.filter f l).
Proof.
  revert j. induction l as [|a l IH]; intros j Hj Hy; [discriminate|].
  simpl. destruct j as [|j]; simpl in Hj.
  - injection Hj as ->. rewrite Hy. simpl. lia.
  - specialize (IH _ Hj Hy). destruct (f a); simpl; lia.
Qed.

Lemma filter_nonempty_inv {A} (f : A -> bool) (l : list A) :
  1 <= length (List.filter f l) -> exists j y, l !! j = Some y /\ f y = true.
Proof.
  induction l as [|a l IH]; simpl; [lia|].
  destruct (f a) eqn:E.
  - intros _. now exists 0, a.
  - intros H. destruct (IH H) as (j & y & Hj & Hy). now exists (S j), y.
Qed.

Lemma two_positions {A} (f : A -> bool) (l : list A) :
  2 <= length (List.filter f l) <->
  exists (i j : nat) (x y : A),
    i <> j /\ l !! i = Some x /\ l !! j = Some y /\ f x = true /\ f y = true.
Proof.
  split.
  - induction l as [|a l IH]; simpl; [lia|].
    destruct (f a) eqn:E; simpl.
    + intros H. destruct (filter_nonempty_inv f l) as (j & y & Hj & Hy); [lia|].
      exists 0, (S j), a, y. repeat split; trivial; lia.
    + intros H. destruct (IH H) as (i & j & x & y & Hne & Hi & Hj & Hx & Hy).
      exists (S i), (S j), x, y. repeat split; trivial; lia.
  - intros (i & j & x & y & Hne & Hi & Hj & Hx & Hy).
    revert i j Hne Hi Hj. induction l as [|a l IH]; intros i j Hne Hi Hj; [discriminate|].
    simpl. destruct i as [|i], j as [|j]; simpl in Hi, Hj.
    + lia.
    + injection Hi as ->. rewrite Hx. simpl.
      pose proof (filter_nonempty f l j y Hj Hy). lia.
    + injection Hj as ->. rewrite Hy. simpl.
      pose proof (filter_nonempty f l i x Hi Hx). lia.
    + assert (2 <= length (List.filter f l)) by (apply (IH i j); trivial; lia).
      destruct (f a); simpl; lia.
Qed.

Lemma count_dir_two m rows :
  2 <= Gorm.count_dir m rows <-> two_in_dir_of m rows.
Proof.
  unfold Gorm.count_dir, two_in_dir_of. rewrite two_positions.
  split.
  - intros (i & j & x & y & Hne & Hi & Hj & Hx & Hy). exists i, j, x, y.
    apply same_dir_true in Hx as [? ?]. apply same_dir_true in Hy as [? ?].
    repeat split; trivial; congruence.
  - intros (i & j & x & y & Hne & Hi & Hj & H1 & H2 & H3 & H4). exists i, j, x, y.
    repeat split; trivial; apply same_dir_true; split; congruence.
Qed.

(** The rows of the grouped query. *)
Lemma group_by_dir_sound g rows :
  In g (Gorm.group_by_dir rows) -> exists r, In r rows /\ g = Gorm.group_row r.
Proof.
  induction rows as [|a rows IH]; simpl; [tauto|].
  intros [<-|H]; [eauto|].
  apply filter_In in H as [H _]. destruct (IH H) as (r & Hr & ->). eauto.
Qed.

Lemma group_row_same a b : Gorm.same_dir a b = true -> Gorm.group_row a = Gorm.group_row b.
Proof. intros H. apply same_dir_true in H as [Hn Hp]. unfold Gorm.group_row. now rewrite Hn, Hp. Qed.

Lemma group_by_dir_complete r rows :
  In r rows -> In (Gorm.group_row r) (Gorm.group_by_dir rows).
Proof.
  induction rows as [|a rows IH]; simpl; [tauto|].
  intros [->|H]; [now left|].
  destruct (Gorm.same_dir a (Gorm.group_row r)) eqn:E.
  - left. apply same_dir_true in E as [Hn Hp]. simpl in Hn, Hp.
    unfold Gorm.group_row. now rewrite Hn, Hp.
  - right. apply filter_In. split; [auto|]. now rewrite E.
Qed.

Lemma duplicate_dirs_In g rows :
  In g (Gorm.duplicate_dirs rows) <->
  exists r, In r rows /\ g = Gorm.group_row r /\ 2 <= Gorm.count_dir r rows.
Proof.
  unfold Gorm.duplicate_dirs. rewrite filter_In. split.
  - intros [H Hc]. destruct (group_by_dir_sound _ _ H) as (r & Hr & ->).
    exists r. repeat split; trivial.
    apply Nat.ltb_lt in Hc. rewrite <- (count_dir_cong (Gorm.group_row r) r); trivial. 
  - intros (r & Hr & -> & Hc). split; [now apply group_by_dir_complete|].
    apply Nat.ltb_lt. rewrite (count_dir_cong (Gorm.group_row r) r); trivial.
Qed.

(** With both directory fields set, the struct condition is the
    comparison of the two columns. *)
Lemma matches_dir_query r' r :
  Movie.DirName r' <> "" -> Movie.DirPath r' <> "" ->
  Gorm.matches (dir_query (Gorm.group_row r')) r = Gorm.same_dir r' r.
Proof.
  intros Hn Hp. unfold Gorm.matches, dir_query, Gorm.group_row, Gorm.same_dir. simpl.
  unfold Gorm.cond_string.
  apply String.eqb_neq in Hn, Hp. rewrite Hn, Hp. simpl.
  rewrite !andb_true_r. apply andb_comm.
Qed.

Lemma hit_by_true ms i :
  hit_by ms i = true <-> exists m, In m ms /\ (Movie.ID m = 0%N \/ i = Movie.ID m).
Proof.
  unfold hit_by. rewrite existsb_exists. split; intros (m & Hm & H); exists m; split; trivial.
  - apply orb_true_iff in H as [H|H]; [left|right]; now apply N.eqb_eq.
  - apply orb_true_iff. destruct H as [H|H]; [left|right]; now apply N.eqb_eq.
Qed.

Lemma same_key_same_row rows a b :
  NoDup (map Movie.ID rows) -> In a rows -> In b rows -> Movie.ID a = Movie.ID b -> a = b.
Proof.
  induction rows as [|r rows IH]; simpl; [tauto|].
  intros Hnd [->|Ha] [->|Hb] Hid; trivial.
  - exfalso. apply NoDup_cons_1_1 in Hnd. apply Hnd.
    apply list_elem_of_In. rewrite Hid. now apply in_map.
  - exfalso. apply NoDup_cons_1_1 in Hnd. apply Hnd.
    apply list_elem_of_In. rewrite <- Hid. now apply in_map.
  - apply IH; trivial. now apply NoDup_cons_1_2 in Hnd.
Qed.

(** On a well-keyed table the pass hits exactly the rows whose directory
    holds two rows or more. *)
Lemma hit_iff_shared rows r :
  well_keyed rows -> In r rows ->
  hit_by_groups (Gorm.duplicate_dirs rows) rows (Movie.ID r) = true
  <-> 2 <= Gorm.count_dir r rows.
Proof.
  intros [Hnd Hall] Hr. rewrite Forall_forall in Hall.
  unfold hit_by_groups. rewrite existsb_exists. split.
  - intros (g & Hg & Hhit).
    apply duplicate_dirs_In in Hg as (r' & Hr' & -> & Hc).
    apply hit_by_true in Hhit as (m & Hm & Hid).
    apply filter_In in Hm as [Hm Hmatch].
    destruct (Hall _ (proj2 (list_elem_of_In _ _) Hr')) as (_ & Hn' & Hp').
    rewrite matches_dir_query in Hmatch by trivial.
    destruct Hid as [Hz|Hid].
    { destruct (Hall _ (proj2 (list_elem_of_In _ _) Hm)) as (Hz' & _). congruence. }
    assert (r = m) as <- by (eapply same_key_same_row; eauto).
    apply same_dir_true in Hmatch as [Hn Hp].
    now rewrite <- (count_dir_cong r' r).
  - intros Hc. exists (Gorm.group_row r). split.
    + apply duplicate_dirs_In. eauto.
    + apply hit_by_true. exists r. split; [|now right].
      apply filter_In. split; [trivial|].
      destruct (Hall _ (proj2 (list_elem_of_In _ _) Hr)) as (_ & Hn & Hp).
      rewrite matches_dir_query by trivial. apply same_dir_refl.
Qed.

Lemma next_movie_id_above rows r :
  In r rows -> (Movie.ID r < Gorm.next_movie_id rows)%N.
Proof.
  unfold Gorm.next_movie_id. induction rows as [|a rows IH]; simpl; [tauto|].
  intros [->|H]; [lia|]. specialize (IH H). lia.
Qed.

Section Ingest.

Variable Parse : string -> TorrentInfo * option string.

Lemma saveMovie_rows c movie :
  exists row,
    movies (saveMovie Parse c movie) = (movies c ++ [row])%list /\
    subtitles (saveMovie Parse c movie) = subtitles c /\
    Movie.ID row = Gorm.next_movie_id (movies c) /\
    Movie.DirPath row = Dir movie /\
    Movie.DirName row = Filepath.Base (Dir movie) /\
    Movie.BaseName row = MovieFile movie /\
    Movie.CleanBaseName row
      = match snd (Parse (Filepath.Base (Dir movie))) with
        | None => Title (fst (Parse (MovieFile movie)))
        | Some _ => ""
        end /\
    Movie.IsGroupDir row = false.
Proof.
  unfold saveMovie.
  destruct (Parse (Filepath.Base (Dir movie))) as [dinfo err].
  destruct (Parse (MovieFile movie)) as [binfo berr].
  eexists. unfold Gorm.CreateMovie. simpl. repeat split.
Qed.

Lemma saveSub_rows c sub :
  exists row,
    subtitles (saveSub Parse c sub) = (subtitles c ++ [row])%list /\
    movies (saveSub Parse c sub) = movies c /\
    Subtitle.BaseName row = SubFile sub /\
    Subtitle.CleanBaseName row
      = match snd (Parse (Filepath.Base (SubDir sub))) with
        | None => Title (fst (Parse (SubFile sub)))
        | Some _ => ""
        end.
Proof.
  unfold saveSub.
  destruct (Parse (Filepath.Base (SubDir sub))) as [dinfo err].
  destruct (Parse (SubFile sub)) as [binfo berr].
  eexists. unfold Gorm.CreateSubtitle. simpl. repeat split.
Qed.

Lemma saveSubs_movies subs c : movies (saveSubs Parse subs c) = movies c.
Proof.
  unfold saveSubs. revert c. induction subs as [|s subs IH]; intros c; simpl; [reflexivity|].
  rewrite IH. destruct (saveSub_rows c s) as (row & _ & H & _). exact H.
Qed.

Lemma saveMovie_fresh c movie :
  Dir movie <> "" -> fresh_table (movies c) -> fresh_table (movies (saveMovie Parse c movie)).
Proof.
  intros Hd [[Hnd Hall] Hflag].
  destruct (saveMovie_rows c movie) as (row & -> & _ & Hid & Hp & Hn & _ & _ & Hf).
  repeat split.
  - rewrite map_app. simpl. apply NoDup_app. repeat split; trivial.
    + intros i Hi Hi'. apply list_elem_of_In in Hi, Hi'.
      destruct Hi' as [<-|[]]. apply in_map_iff in Hi as (r & Hr & Hin).
      apply next_movie_id_above in Hin. lia.
    + apply NoDup_singleton.
  - apply Forall_app. split; trivial. constructor; [|constructor].
    repeat split.
    + rewrite Hid. unfold Gorm.next_movie_id. lia.
    + rewrite Hn. apply Base_nonempty.
    + now rewrite Hp.
  - apply Forall_app. split; trivial. constructor; [trivial|constructor].
Qed.

Lemma saveMovies_fresh ms c :
  Forall (fun e => Dir e <> "") ms -> fresh_table (movies c) ->
  fresh_table (movies (saveMovies Parse ms c)).
Proof.
  unfold saveMovies. revert c. induction ms as [|m ms IH]; intros c Hms Hc; simpl; [trivial|].
  apply Forall_cons in Hms as [Hm Hms]. apply IH; trivial. now apply saveMovie_fresh.
Qed.

End Ingest.

Lemma fresh_table_nil : fresh_table [].
Proof. repeat split; constructor. Qed.

(** The flags after the pass over a freshly ingested table. *)
Lemma detect_fresh c m :
  fresh_table (movies c) -> In m (movies (detectGroups c)) ->
  (Movie.IsGroupDir m = true <-> two_in_dir_of m (movies (detectGroups c))).
Proof.
  intros [Hwk Hflag] Hm. rewrite detectGroups_mark in *.
  set (h := hit_by_groups _ _) in *.
  unfold mark in Hm. apply in_map_iff in Hm as (r & <- & Hr).
  rewrite <- count_dir_two.
  fold (mark h (movies c)). rewrite count_dir_mark.
  rewrite Forall_forall in Hflag.
  pose proof (Hflag _ (proj2 (list_elem_of_In _ _) Hr)) as Hf.
  destruct (h (Movie.ID r)) eqn:E.
  - rewrite (count_dir_cong (flagged r) r) by reflexivity.
    split; [intros _|reflexivity]. now apply hit_iff_shared.
  - rewrite Hf. split; [discriminate|].
    intros Hc. apply hit_iff_shared in Hc; trivial. fold h in Hc. congruence.
Qed.

End GroupFlag.

(** C2. After ingestion and the pass, a movie row has its group flag set
    exactly when the table holds two rows, at different positions, with
    its directory name and its directory path. The scan hands over
    directory paths that are not empty (they lie under the [-path] that
    [main] insists on). *)
Theorem group_flag_iff_shared_directory
    (Parse : string -> TorrentInfo * option string)
    (ms : list MovieDirInfo) (ss : list SubDirInfo) (m : Movie.t) :
  Forall (fun e => Dir e <> "") ms ->
  In m (movies (detectGroups (saveSubs Parse ss (saveMovies Parse ms empty_catalog)))) ->
  (Movie.IsGroupDir m = true <->
   Detect.two_in_dir_of m
     (movies (detectGroups (saveSubs Parse ss (saveMovies Parse ms empty_catalog))))).
Proof.
  intros Hms Hm. apply detect_fresh; trivial.
  rewrite saveSubs_movies. apply saveMovies_fresh; trivial. apply fresh_table_nil.
Qed.

(** C4. The pass leaves the table of subtitles as it is, and what it does
    to the movies does not depend on the subtitles in the catalog. *)
Theorem subtitles_never_flagged
    (Parse : string -> TorrentInfo * option string)
    (c : Catalog) (subs' : list Subtitle.t) (ss : list SubDirInfo) :
  subtitles (detectGroups c) = subtitles c /\
  movies (detectGroups (mkCatalog (movies c) subs')) = movies (detectGroups c) /\
  movies (detectGroups (saveSubs Parse ss c)) = movies (detectGroups c).
Proof.
  repeat split. unfold detectGroups. simpl. now rewrite saveSubs_movies.
Qed.

Lemma group_flag_iff_shared_directory_witness :
  map Movie.IsGroupDir
    (movies (detectGroups (saveSubs Sample.Parse (snd Sample.scan)
                             (saveMovies Sample.Parse (fst Sample.scan) empty_catalog))))
    = [true; true; false] /\
  Detect.two_in_dir_of Sample.first_row
    (movies (detectGroups (saveSubs Sample.Parse (snd Sample.scan)
                             (saveMovies Sample.Parse (fst Sample.scan) empty_catalog)))).
Proof.
  split; [reflexivity|].
  apply (proj1 (group_flag_iff_shared_directory Sample.Parse (fst Sample.scan)
                  (snd Sample.scan) Sample.first_row
                  ltac:(repeat constructor; discriminate)
                  ltac:(left; reflexivity))).
  reflexivity.
Defined.

(** A film alone in its directory stays unflagged, with a subtitle next
    to it or without. *)
Example single_movie_not_flagged :
  map Movie.IsGroupDir
    (movies (detectGroups
               (saveSubs Sample.Parse
                  [ {| SubDir := "/movies/Film.2020"; SubFile := "a.srt" |};
                    {| SubDir := "/movies/Film.2020"; SubFile := "b.srt" |} ]
                  (saveMovies Sample.Parse
                     [ {| Dir := "/movies/Film.2020"; MovieFile := "Film.2020.mkv";
                          MovieSize := 900; MimeType := "video/x-matroska" |} ]
                     empty_catalog))))
    = [false].
Proof. reflexivity. Qed.

(** ** The catalog writer *)

(** C1, at an input where it fails. The title parser reads the file name
    without error and finds the title [Film], but it reports an error for
    the directory name; the row is stored with an empty clean base name,
    for a movie and for a subtitle alike: the test that guards the clean
    base name looks at the error of the directory name. *)
Theorem clean_base_name_follows_directory_error :
  Sample.Parse "Film.2020.mkv" = ({| Title := "Film" |}, None) /\
  snd (Sample.Parse (Filepath.Base "/movies/.incoming")) = Some "no title" /\
  map Movie.CleanBaseName
    (movies (saveMovies Sample.Parse
               [ {| Dir := "/movies/.incoming"; MovieFile := "Film.2020.mkv";
                    MovieSize := 900; MimeType := "video/x-matroska" |} ]
               empty_catalog)) = [""] /\
  Sample.Parse "Film.2020.srt" = ({| Title := "Film" |}, None) /\
  map Subtitle.CleanBaseName
    (subtitles (saveSubs Sample.Parse
                  [ {| SubDir := "/movies/.incoming"; SubFile := "Film.2020.srt" |} ]
                  empty_catalog)) = [""].
Proof. repeat split. Qed.

(** When the directory name parses, the clean base name is the title read
    from the file name. *)
Example clean_base_name_with_directory_title :
  map Movie.CleanBaseName
    (movies (saveMovies Sample.Parse (fst Sample.scan) empty_catalog))
    = ["ep1"; "ep2"; "Film"].
Proof. reflexivity. Qed.


(** ** Serving and shutdown *)

Section LifecycleFacts.

Import Lifecycle Progress.

Variable w : World.
Variable serverPort : Z.
Variable f : FS.

Lemma preceded_by_nil P b : preceded_by P b [].
Proof. intros l1 l2 H. now destruct l1. Qed.

Lemma preceded_by_app P b tr evs :
  preceded_by P b tr ->
  (In b evs -> exists a, In a tr /\ P a) ->
  preceded_by P b (tr ++ evs).
Proof.
  intros Htr Hevs l1 l2 E.
  apply app_eq_app in E as (l & [[-> E]|[-> E]]).
  - destruct l as [|x l]; simpl in E.
    + rewrite app_nil_r in Hevs. apply Hevs. rewrite <- E. now left.
    + injection E as <- E. apply (Htr l1 l). reflexivity.
  - destruct Hevs as (a & Ha & HP).
    + rewrite E. apply in_or_app. right. now left.
    + exists a. split; [apply in_or_app; now left|trivial].
Qed.

Lemma preceded_by_trans (P Q : Event -> Prop) c tr :
  preceded_by Q c tr -> (forall b, Q b -> preceded_by P b tr) -> preceded_by P c tr.
Proof.
  intros Hc Hb l1 l2 E.
  destruct (Hc l1 l2 E) as (b & Hin & HQ).
  apply in_split in Hin as (m1 & m2 & ->).
  destruct (Hb b HQ m1 (m2 ++ c :: l2)%list) as (a & Ha & HP).
  - rewrite E, <- app_assoc. reflexivity.
  - exists a. split; [apply in_or_app; now left|trivial].
Qed.

Lemma Inv_start : Inv w f (start f).
Proof.
  constructor; simpl; try lia; try tauto; try discriminate;
    try (intros; apply preceded_by_nil).
Qed.

Ltac in_old H := apply in_or_app; left; apply H; lia.
Ltac in_new := apply in_or_app; right; simpl; solve [auto 6].
Ltac in_either H := intros ?; first [lia | in_old H | in_new].
Ltac ord_step H :=
  apply preceded_by_app; [apply H|];
  simpl; intros Hin;
  repeat (destruct Hin as [Hin|Hin]; try discriminate Hin); try contradiction.

Lemma Inv_step s l s' : Inv w f s -> step w serverPort l s = Some s' -> Inv w f s'.
Proof.
  intros HI Hs. destruct s as [m k cs sh fs0 tr].
  destruct HI as [I1 I2 I3 I4 I5 I6 I7 I8 I9 I10 I11 I12 I13 I14 O1 O2 O3 O4 O5].
  simpl in *. unfold step, main_step, watcher_step, emit in Hs. simpl in Hs.
  repeat match type of Hs with
         | context [match ?x with _ => _ end] =>
             destruct x; simpl in Hs; try discriminate Hs
         end;
    injection Hs as <-; simpl in *.
  all: constructor; simpl.
  all: try lia.
  all: try exact I5.
  all: try solve [in_either I2].
  all: try solve [in_either I3].
  all: try solve [in_either I4].
  all: try solve [in_either I9].
  all: try solve [in_either I11].
  all: try solve [split; intros ?; first [lia | reflexivity | discriminate | (apply I5; lia)]].
  all: try solve [split; intros H; [apply I5 in H; lia|lia]].
  all: try solve [intros H r Hin; apply in_app_or in Hin as [Hin|Hin];
                  [eapply I6; [lia|exact Hin] | simpl in Hin; intuition discriminate]].
  all: try solve [intros H; first
            [ lia
            | destruct I7 as [r Hr]; [lia|]; exists r; apply in_or_app; left; exact Hr
            | eexists; in_new ]].
  all: try solve [intros H e' Hin; first
            [ lia
            | in_new
            | apply in_app_or in Hin as [Hin|Hin];
              [ first [ exfalso; eapply I6; [lia|exact Hin]
                      | apply in_or_app; left; eapply I8; [lia|exact Hin] ]
              | simpl in Hin; intuition discriminate ] ]].
  all: try solve [intros H; first
            [ lia
            | destruct I12 as [Ha Hb]; [lia|]; split;
              [apply in_or_app; left; exact Ha | exact Hb]
            | split; [in_new | rewrite I13 by lia; reflexivity] ]].
  all: try solve [intros H; apply I13; lia].
  all: try solve [intros d Hin; apply in_app_or in Hin as [Hin|Hin];
            [now apply I14 | simpl in Hin; intuition (try discriminate); congruence]].
  all: try solve [ord_step O1; exists EvSpawn; (split; [apply I2; lia|reflexivity])].
  all: try solve [intros d; ord_step (O2 d); exists EvSignalObserved;
                  (split; [apply I3; lia|reflexivity])].
  all: try solve [intros r; ord_step (O3 r); exists (EvShutdownCalled (Second * 30));
                  (split; [apply I4; lia|eexists; reflexivity])].
  all: try solve [ord_step O4;
                  (destruct I7 as [r Hr]; [lia|];
                   exists (EvShutdownReturned r); (split; [exact Hr|eexists; reflexivity]))].
  all: try solve [intros p; ord_step (O5 p); exists EvServerDone;
                  (split; [apply I9; lia|reflexivity])].
Qed.


Lemma reachable_Inv s : reachable w serverPort f s -> Inv w f s.
Proof. induction 1; [apply Inv_start|eapply Inv_step; eauto]. Qed.

Lemma run_reachable ls s s' :
  reachable w serverPort f s -> run w serverPort ls s = Some s' ->
  reachable w serverPort f s'.
Proof.
  revert s. induction ls as [|l ls IH]; intros s Hr; simpl.
  - now intros [= <-].
  - destruct (step w serverPort l s) as [s1|] eqn:E; [|discriminate].
    apply IH. econstructor; eauto.
Qed.

(** The history only grows, and the watcher only advances. *)
Lemma step_grows l s s' :
  step w serverPort l s = Some s' ->
  (exists evs, trace s' = (trace s ++ evs)%list) /\
  wrank (wpc s) <= wrank (wpc s') /\
  (if is_thread_step l then remaining s' < remaining s
   else remaining s' = remaining s).
Proof.
  destruct s as [m k cs sh fs0 tr]. unfold step, main_step, watcher_step, emit. simpl.
  intros Hs.
  repeat match type of Hs with
         | context [match ?x with _ => _ end] =>
             destruct x; simpl in Hs; try discriminate Hs
         end;
    injection Hs as <-; unfold remaining; simpl; (split; [eauto|lia]).
Qed.

Lemma run_grows ls s s' :
  run w serverPort ls s = Some s' ->
  (forall a, In a (trace s) -> In a (trace s')) /\
  wrank (wpc s) <= wrank (wpc s') /\
  thread_steps ls + remaining s' <= remaining s.
Proof.
  revert s. induction ls as [|l ls IH]; intros s; simpl.
  - intros [= <-]. repeat split; trivial; unfold thread_steps; simpl; lia.
  - destruct (step w serverPort l s) as [s1|] eqn:E; [|discriminate].
    intros Hrun. destruct (IH _ Hrun) as (Htr & Hw & Hm).
    destruct (step_grows _ _ _ E) as ((evs & Hevs) & Hw1 & Hm1).
    repeat split.
    + intros a Ha. apply Htr. rewrite Hevs. apply in_or_app. now left.
    + lia.
    + unfold thread_steps in *. simpl.
      destruct (is_thread_step l); simpl; lia.
Qed.

(** Once the interrupt has been observed, the threads stop only when
    [main] has returned. *)
Lemma stops_only_at_exit s :
  Inv w f s -> 2 <= wrank (wpc s) -> can_move w serverPort s = false -> mpc s = MExit.
Proof.
  intros HI Hobs. destruct s as [m k cs sh fs0 tr].
  destruct HI as [I1 _ _ _ I5 _ _ _ _ I10 _ _ _ _ _ _ _ _ _]. simpl in *.
  unfold can_move, step, main_step, watcher_step, emit. simpl.
  destruct m, k; simpl in *; try lia; try reflexivity; try discriminate.
  all: destruct sh; simpl; try discriminate.
  all: intros _; exfalso; assert (false = true) by (apply I5; lia); discriminate.
Qed.

End LifecycleFacts.

(** C6, as the code has it. In every reachable state: each removal of the
    working directory comes after a return of the graceful stop, each
    return of the graceful stop after the observation of the interrupt,
    and that after the start of the watcher (not after the start of
    serving); [main] is past its wait only when the watcher has sent on
    [serverDone], which it does after the stop has returned. *)
Theorem shutdown_order (w : World) (serverPort : Z) (f : FS) (s : Lifecycle.State) :
  Lifecycle.reachable w serverPort f s ->
  (forall p, Lifecycle.preceded_by Progress.shutdown_returned
               (Lifecycle.EvRemoveAll p) (Lifecycle.trace s)) /\
  (forall r, Lifecycle.preceded_by (eq Lifecycle.EvSignalObserved)
               (Lifecycle.EvShutdownReturned r) (Lifecycle.trace s)) /\
  Lifecycle.preceded_by (eq Lifecycle.EvSpawn) Lifecycle.EvSignalObserved
    (Lifecycle.trace s) /\
  (forall p, Lifecycle.preceded_by (eq Lifecycle.EvServerDone)
               (Lifecycle.EvRemoveAll p) (Lifecycle.trace s)) /\
  Lifecycle.preceded_by Progress.shutdown_returned Lifecycle.EvServerDone
    (Lifecycle.trace s) /\
  (8 <= Progress.mrank (Lifecycle.mpc s) -> In Lifecycle.EvServerDone (Lifecycle.trace s)).
Proof.
  intros Hr. apply reachable_Inv in Hr.
  destruct Hr as [_ _ _ _ _ _ _ _ I9 I10 _ _ _ _ O1 O2 O3 O4 O5].
  repeat split; trivial.
  - intros p. eapply preceded_by_trans; [apply O5|]. now intros b <-.
  - intros r. eapply preceded_by_trans; [apply O3|]. intros b [d ->]. apply O2.
  - intros H. apply I9, I10, H.
Qed.

Lemma shutdown_order_witness :
  Lifecycle.preceded_by (eq Lifecycle.EvSpawn) Lifecycle.EvSignalObserved
    (Lifecycle.trace Sample.stopped).
Proof.
  refine (proj1 (proj2 (proj2
            (shutdown_order Sample.world 1818 ∅ Sample.stopped _)))).
  apply (run_reachable Sample.world 1818 ∅ Sample.early_interrupt (Lifecycle.start ∅)).
  - constructor.
  - reflexivity.
Defined.

(** C6 as the spec words it fails: the interrupt can be observed, and the
    stop requested, before [ListenAndServe] is called. In this run the
    interrupt arrives right after the watcher is started. *)
Lemma interrupt_observed_before_serving :
  Lifecycle.run Sample.world 1818 Sample.early_interrupt (Lifecycle.start ∅)
    = Some Sample.stopped /\
  In Lifecycle.EvListenAndServe (Lifecycle.trace Sample.stopped) /\
  ~ Lifecycle.preceded_by (eq Lifecycle.EvListenAndServe) Lifecycle.EvSignalObserved
      (Lifecycle.trace Sample.stopped).
Proof.
  split; [reflexivity|]. split; [simpl; tauto|].
  intros H.
  destruct (H [Lifecycle.EvSpawn; Lifecycle.EvInterrupt]
              (skipn 3 (Lifecycle.trace Sample.stopped)) eq_refl) as (a & Ha & <-).
  simpl in Ha. intuition discriminate.
Qed.


(** C7. The graceful stop is called with a deadline of thirty seconds.
    When the call comes back with an error (the deadline has passed, or
    anything else), the run goes on: whatever the schedule, the threads
    take at most thirteen more steps, and when none can move [main] has
    returned, the error has been logged, the watcher has sent on
    [serverDone] and [cleanup] has run on the working directory. *)
Theorem graceful_stop_failure_is_not_fatal
    (w : World) (serverPort : Z) (f : FS) (s : Lifecycle.State) (e : string) :
  Lifecycle.reachable w serverPort f s ->
  Lifecycle.wpc s = Lifecycle.WInShutdown ->
  (forall d, In (Lifecycle.EvShutdownCalled d) (Lifecycle.trace s) ->
             d = (30 * 1000000000)%Z) /\
  exists s1,
    Lifecycle.step w serverPort (Lifecycle.ShutdownError e) s = Some s1 /\
    forall ls s2,
      Lifecycle.run w serverPort ls s1 = Some s2 ->
      Progress.thread_steps ls <= 13 /\
      (Lifecycle.can_move w serverPort s2 = false ->
       Lifecycle.mpc s2 = Lifecycle.MExit /\
       In (Lifecycle.EvLog Lifecycle.Error "Couldn't gracefully shutdown")
          (Lifecycle.trace s2) /\
       In Lifecycle.EvServerDone (Lifecycle.trace s2) /\
       In (Lifecycle.EvRemoveAll (getAppDir w)) (Lifecycle.trace s2) /\
       Lifecycle.fs s2 = Lifecycle.after_cleanup w f /\
       (removeall_error w (getAppDir w) = false ->
        Lifecycle.fs s2 !! getAppDir w = None)).
Proof.
  intros Hr Hk. pose proof (reachable_Inv _ _ _ _ Hr) as HI.
  split.
  { intros d Hd. now apply (Progress.inv_deadline _ _ _ HI). }
  assert (Hm : Lifecycle.mpc s <> Lifecycle.MExit).
  { intros Hm. pose proof (Progress.inv_handoff _ _ _ HI) as H.
    rewrite Hm, Hk in H. simpl in H. lia. }
  set (s1 := Lifecycle.emit s (Lifecycle.mpc s) Lifecycle.WLogError
                [Lifecycle.EvShutdownReturned (Some e)]).
  assert (Hs1 : Lifecycle.step w serverPort (Lifecycle.ShutdownError e) s = Some s1).
  { unfold Lifecycle.step. rewrite Hk. now destruct (Lifecycle.mpc s). }
  exists s1. split; [exact Hs1|].
  intros ls s2 Hrun.
  assert (Hr1 : Lifecycle.reachable w serverPort f s1)
    by (eapply Lifecycle.reach_step; eauto).
  pose proof (run_reachable _ _ _ _ _ _ Hr1 Hrun) as Hr2.
  pose proof (reachable_Inv _ _ _ _ Hr2) as HI2.
  destruct (run_grows _ _ _ _ _ Hrun) as (Htr & Hw & Hsteps).
  split.
  { unfold Progress.remaining in Hsteps. simpl in Hsteps. lia. }
  intros Hstuck. simpl in Hw.
  assert (He : Lifecycle.mpc s2 = Lifecycle.MExit)
    by (apply (stops_only_at_exit w serverPort f); trivial; lia).
  pose proof (Progress.inv_handoff _ _ _ HI2) as Hh.
  rewrite He in Hh. simpl in Hh.
  destruct (Progress.inv_removed _ _ _ HI2) as [Hrm Hfs]; [rewrite He; simpl; lia|].
  repeat split; trivial.
  - apply (Progress.inv_logged _ _ _ HI2 ltac:(lia) e).
    apply Htr. simpl. apply in_or_app. right. now left.
  - apply (Progress.inv_done _ _ _ HI2). lia.
  - intros Hok. rewrite Hfs. unfold Lifecycle.after_cleanup.
    destruct (cleanup_removes w f Hok) as (fs' & -> & Hgone).
    apply Hgone, under_self.
Qed.

Lemma graceful_stop_failure_is_not_fatal_witness :
  Lifecycle.wpc Sample.stopping = Lifecycle.WInShutdown /\
  Lifecycle.run Sample.world 1818
    (Lifecycle.ShutdownError "context deadline exceeded" :: Sample.after_deadline)
    Sample.stopping = Some Sample.stopped_late /\
  Lifecycle.mpc Sample.stopped_late = Lifecycle.MExit /\
  Lifecycle.fs Sample.stopped_late !! getAppDir Sample.world = None.
Proof.
  split; [reflexivity|]. split; [reflexivity|].
  destruct (graceful_stop_failure_is_not_fatal Sample.world 1818 Sample.fs_with_old_store
              Sample.stopping "context deadline exceeded") as (_ & s1 & Hs1 & H).
  - apply (run_reachable Sample.world 1818 Sample.fs_with_old_store Sample.until_shutdown
             (Lifecycle.start Sample.fs_with_old_store)); [constructor|reflexivity].
  - reflexivity.
  - destruct (H Sample.after_deadline Sample.stopped_late) as (_ & H2).
    + injection Hs1 as <-. reflexivity.
    + destruct (H2 eq_refl) as (Hm & _ & _ & _ & _ & Hgone).
      split; [exact Hm|]. apply Hgone. reflexivity.
Defined.

(** * Further properties of the code *)

(** ** [init] and [cleanup] on the file system *)

Lemma MkdirAll_frame w p fs fs' k :
  Os.MkdirAll w p fs = Ok fs' -> ~ In k (Os.dir_chain p) -> fs' !! k = fs !! k.
Proof.
  unfold Os.MkdirAll. destruct (mkdirall_error w p); [discriminate|].
  destruct (existsb _ _); [discriminate|]. intros [= <-].
  generalize (Os.dir_chain p) as ds. intros ds. revert fs.
  induction ds as [|d ds IH]; intros fs Hk; simpl; [reflexivity|].
  rewrite IH by (intros H; apply Hk; now right).
  apply lookup_insert_ne. intros ->. apply Hk. now left.
Qed.

Lemma createAppDir_frame w fs o k :
  createAppDir w fs = o -> ~ In k (Os.dir_chain (getAppDir w)) ->
  final_fs o !! k = fs !! k.
Proof.
  intros <- Hk. unfold createAppDir.
  destruct (Os.IsNotExist _); [|reflexivity].
  destruct (Os.MkdirAll _ _ _) as [fs'|] eqn:E; simpl; [|reflexivity].
  eapply MkdirAll_frame; eauto.
Qed.

Lemma Remove_frame w p fs fs' k :
  Os.Remove w p fs = Ok fs' -> k <> p -> fs' !! k = fs !! k.
Proof.
  unfold Os.Remove. destruct (remove_error w p); [discriminate|].
  destruct (fs !! p) as [[|c]|]; try discriminate.
  - destruct (Os.has_children _ _); [discriminate|].
    intros [= <-] Hk. now apply lookup_delete_ne.
  - intros [= <-] Hk. now apply lookup_delete_ne.
Qed.

Lemma removeObsoleteDB_frame w fs o k :
  removeObsoleteDB w fs = o -> k <> getDBPath w -> final_fs o !! k = fs !! k.
Proof.
  intros <- Hk. unfold removeObsoleteDB.
  destruct (negb _); [|reflexivity].
  destruct (Os.Remove _ _ _) as [fs'|] eqn:E; simpl; [|reflexivity].
  eapply Remove_frame; eauto.
Qed.

Lemma Create_frame w p fs fs' k :
  Os.Create w p fs = Ok fs' -> k <> p -> fs' !! k = fs !! k.
Proof.
  unfold Os.Create. destruct (create_error w p); [discriminate|].
  destruct (Os.is_dir fs p); [discriminate|].
  destruct (Os.parent p) as [up|].
  - destruct (Os.is_dir fs up); [|discriminate].
    intros [= <-] Hk. now apply lookup_insert_ne.
  - intros [= <-] Hk. now apply lookup_insert_ne.
Qed.

Lemma createDBFile_frame w fs o k :
  createDBFile w fs = o -> k <> getDBPath w -> final_fs o !! k = fs !! k.
Proof.
  intros <- Hk. unfold createDBFile.
  destruct (Os.Create _ _ _) as [fs'|] eqn:E; simpl; [|reflexivity].
  eapply Create_frame; eauto.
Qed.

(** X1. However [init] ends (normally, with a panic, or with [os.Exit]),
    the only paths whose state can differ afterwards are the working
    directory with the directories above it, and the store file. *)
Theorem init_touches_only_its_paths (w : World) (fs : FS) (k : string) :
  k <> getDBPath w ->
  ~ In k (Os.dir_chain (getAppDir w)) ->
  final_fs (init w fs) !! k = fs !! k.
Proof.
  intros Hdb Hch. unfold init, mbind, Proc_bind.
  pose proof (createAppDir_frame w fs _ k eq_refl Hch) as H1.
  destruct (createAppDir w fs) as [[] fs1|e fs1]; simpl in *; [|exact H1].
  pose proof (removeObsoleteDB_frame w fs1 _ k eq_refl Hdb) as H2.
  destruct (removeObsoleteDB w fs1) as [[] fs2|e fs2]; simpl in *; [|congruence].
  pose proof (createDBFile_frame w fs2 _ k eq_refl Hdb) as H3.
  congruence.
Qed.

Lemma init_touches_only_its_paths_witness :
  final_fs (init Sample.world Scenario.fs_with_other_files) !! "/home/u/notes.txt"
    = Some (FFile empty_catalog).
Proof.
  rewrite (init_touches_only_its_paths Sample.world Scenario.fs_with_other_files
             "/home/u/notes.txt").
  - reflexivity.
  - discriminate.
  - simpl. intuition discriminate.
Defined.



(** X3. An error of [os.Stat] on the store path other than "does not
    exist" is taken for an existing store: when there is in fact no file
    there, the removal fails and [init] panics with "Unable removing
    obsolete DB". *)
Theorem stat_error_counts_as_obsolete_store (w : World) (fs : FS) :
  stat_error w (getDBPath w) = true ->
  fs !! getDBPath w = None ->
  removeObsoleteDB w fs = Halted (Panic "Unable removing obsolete DB") fs.
Proof.
  intros Hs Hf. unfold removeObsoleteDB, Os.Stat, Os.Remove. rewrite Hs. simpl.
  destruct (remove_error w _); [reflexivity|]. now rewrite Hf.
Qed.

Lemma stat_error_counts_as_obsolete_store_witness :
  removeObsoleteDB Scenario.world_stat_fails ∅
    = Halted (Panic "Unable removing obsolete DB") ∅.
Proof.
  apply stat_error_counts_as_obsolete_store; reflexivity.
Defined.

(** X4. [cleanup] never stops the process; it leaves every path outside the
    working directory as it was; and running it again changes nothing
    more. *)
Theorem cleanup_is_contained (w : World) (fs : FS) :
  exists fs',
    cleanup w fs = Running tt fs' /\
    (forall k, Os.under (getAppDir w) k = false -> fs' !! k = fs !! k) /\
    cleanup w fs' = Running tt fs'.
Proof.
  unfold cleanup, Os.RemoveAll.
  case_decide as Hp; [now apply getAppDir_nonempty in Hp|].
  destruct (removeall_error w (getAppDir w)) eqn:E.
  - exists fs. repeat split.
  - eexists. split; [reflexivity|]. split.
    + intros k Hk. destruct (fs !! k) as [n|] eqn:Ek.
      * apply map_lookup_filter_Some. split; trivial.
      * apply map_lookup_filter_None. now left.
    + f_equal. apply map_eq. intros k.
      destruct (filter _ fs !! k) as [n|] eqn:Ek.
      * apply map_lookup_filter_Some. split; trivial.
        apply map_lookup_filter_Some in Ek. apply Ek.
      * apply map_lookup_filter_None. now left.
Qed.

(** X5. Whatever [os.UserCacheDir] answers, neither the working directory
    nor the store path is the empty string, so the [os.RemoveAll] of
    [cleanup] never degenerates to its no-op on the empty path. *)
Theorem working_paths_never_empty (w : World) :
  getAppDir w <> "" /\ getDBPath w <> "".
Proof.
  split; [apply getAppDir_nonempty|].
  unfold getDBPath. simpl.
  case_decide; [now apply getAppDir_nonempty in H|]. apply Clean_nonempty.
Qed.

(** X6. A run without [-path]: [init] has already built the working
    directory and the store when [main] notices, and the abort throws
    them away again; the process panics with the file system [cleanup]
    leaves. *)
Theorem startup_without_path (w : World)
    (P : string -> TorrentInfo * option string) (T : string -> string)
    (cl : CommandLine) (fs fs1 : FS) :
  default "" (opt_path cl) = "" ->
  init w fs = Running tt fs1 ->
  exists fs',
    cleanup w fs1 = Running tt fs' /\
    startup w P T cl fs
      = Halted (Panic "No movie path directory provided, exited") fs' /\
    (removeall_error w (getAppDir w) = false -> fs' !! getAppDir w = None).
Proof.
  intros Hp Hi. destruct (cleanup_is_contained w fs1) as (fs' & Hc & _ & _).
  exists fs'. split; [exact Hc|]. split.
  - unfold startup, mbind, Proc_bind. rewrite Hi.
    unfold main_setup. rewrite Hp. simpl.
    unfold mbind, Proc_bind. now rewrite Hc.
  - intros Hok.
    destruct (cleanup_removes w fs1 Hok) as (fs2 & H2 & Hgone).
    rewrite Hc in H2. injection H2 as <-. apply Hgone, under_self.
Qed.

Lemma startup_without_path_witness :
  exists fs',
    startup Sample.world Sample.Parse Sample.TrimSpace Scenario.args_without_path ∅
      = Halted (Panic "No movie path directory provided, exited") fs' /\
    fs' !! getAppDir Sample.world = None.
Proof.
  destruct (startup_without_path Sample.world Sample.Parse Sample.TrimSpace
              Scenario.args_without_path ∅ (final_fs (init Sample.world ∅)))
    as (fs' & _ & Hs & Hgone).
  - reflexivity.
  - vm_compute; reflexivity.
  - exists fs'. split; [exact Hs|]. apply Hgone. reflexivity.
Defined.

(** ** The catalog writer, row by row *)

Section Writer.

Variable Parse : string -> TorrentInfo * option string.

Lemma saveMovie_appends c e :
  exists r,
    saveMovie Parse c e = mkCatalog (movies c ++ [r]) (subtitles c) /\
    Ingested.movie_row Parse e r /\
    Movie.ID r = Gorm.next_movie_id (movies c).
Proof.
  unfold saveMovie, Ingested.movie_row.
  destruct (Parse (Filepath.Base (Dir e))) as [dinfo err].
  destruct (Parse (MovieFile e)) as [binfo berr].
  eexists. unfold Gorm.CreateMovie. simpl. repeat split.
Qed.

Lemma saveSub_appends c e :
  exists r,
    saveSub Parse c e = mkCatalog (movies c) (subtitles c ++ [r]) /\
    Ingested.sub_row Parse e r /\
    Subtitle.ID r = Gorm.next_sub_id (subtitles c).
Proof.
  unfold saveSub, Ingested.sub_row.
  destruct (Parse (Filepath.Base (SubDir e))) as [dinfo err].
  destruct (Parse (SubFile e)) as [binfo berr].
  eexists. unfold Gorm.CreateSubtitle. simpl. repeat split.
Qed.

(** X7. [saveMovies] appends one row per scanned movie, in the order of
    the scan, behind the rows already there: path, size, file name and
    MIME type are copied, the directory name is the base of the path, the
    clean directory name is the title parsed from it (empty when that
    parse fails), and both flags are false. The subtitles are untouched. *)
Theorem saveMovies_appends_in_order (ms : list MovieDirInfo) (c : Catalog) :
  exists rows,
    saveMovies Parse ms c = mkCatalog (movies c ++ rows) (subtitles c) /\
    Forall2 (Ingested.movie_row Parse) ms rows.
Proof.
  unfold saveMovies. revert c. induction ms as [|e ms IH]; intros c; simpl.
  - exists []. rewrite app_nil_r. destruct c. split; [reflexivity|constructor].
  - destruct (saveMovie_appends c e) as (r & -> & Hr & _).
    destruct (IH (mkCatalog (movies c ++ [r]) (subtitles c))) as (rows & -> & Hrows).
    exists (r :: rows). simpl. rewrite <- app_assoc. split; [reflexivity|].
    now constructor.
Qed.

(** X8. [saveSubs] appends one row per scanned subtitle, in the order of
    the scan, with path and file name copied and the directory name and
    its title as for movies. The movies are untouched. *)
Theorem saveSubs_appends_in_order (ss : list SubDirInfo) (c : Catalog) :
  exists rows,
    saveSubs Parse ss c = mkCatalog (movies c) (subtitles c ++ rows) /\
    Forall2 (Ingested.sub_row Parse) ss rows.
Proof.
  unfold saveSubs. revert c. induction ss as [|e ss IH]; intros c; simpl.
  - exists []. rewrite app_nil_r. destruct c. split; [reflexivity|constructor].
  - destruct (saveSub_appends c e) as (r & -> & Hr & _).
    destruct (IH (mkCatalog (movies c) (subtitles c ++ [r]))) as (rows & -> & Hrows).
    exists (r :: rows). simpl. rewrite <- app_assoc. split; [reflexivity|].
    now constructor.
Qed.

Lemma saveMovie_saveSub c m s :
  saveSub Parse (saveMovie Parse c m) s = saveMovie Parse (saveSub Parse c s) m.
Proof.
  unfold saveSub, saveMovie.
  destruct (Parse (Filepath.Base (SubDir s))) as [sd se].
  destruct (Parse (SubFile s)) as [sb sbe].
  destruct (Parse (Filepath.Base (Dir m))) as [md me].
  destruct (Parse (MovieFile m)) as [mb mbe].
  reflexivity.
Qed.

Lemma saveMovies_saveSub ms c s :
  saveSub Parse (saveMovies Parse ms c) s = saveMovies Parse ms (saveSub Parse c s).
Proof.
  unfold saveMovies. revert c. induction ms as [|m ms IH]; intros c; simpl; [reflexivity|].
  now rewrite IH, saveMovie_saveSub.
Qed.

(** X9. The two writers do not interfere: storing the subtitles after the
    movies, as [main] does, gives the same catalog as storing them
    before. *)
Theorem saveMovies_saveSubs_commute
    (ms : list MovieDirInfo) (ss : list SubDirInfo) (c : Catalog) :
  saveSubs Parse ss (saveMovies Parse ms c) = saveMovies Parse ms (saveSubs Parse ss c).
Proof.
  unfold saveSubs at 1 2. revert c. induction ss as [|s ss IH]; intros c; simpl; [reflexivity|].
  now rewrite saveMovies_saveSub, IH.
Qed.

Lemma max_id_app rows r :
  fold_right N.max 0%N (map Movie.ID (rows ++ [r]))
    = N.max (fold_right N.max 0%N (map Movie.ID rows)) (Movie.ID r).
Proof.
  induction rows as [|a rows IH]; simpl; [lia|]. rewrite IH. lia.
Qed.

Lemma saveMovies_ids ms c :
  map Movie.ID (movies (saveMovies Parse ms c))
    = (map Movie.ID (movies c)
       ++ map (fun i => (Gorm.next_movie_id (movies c) + N.of_nat i)%N)
            (seq 0 (length ms)))%list.
Proof.
  unfold saveMovies. revert c. induction ms as [|e ms IH]; intros c; simpl.
  - now rewrite app_nil_r.
  - destruct (saveMovie_appends c e) as (r & -> & _ & Hid).
    rewrite IH. simpl. rewrite map_app, <- app_assoc. simpl.
    f_equal. f_equal; [rewrite Hid; f_equal; lia|].
    rewrite <- seq_shift, map_map. apply map_ext. intros i.
    unfold Gorm.next_movie_id. rewrite max_id_app, Hid.
    unfold Gorm.next_movie_id. lia.
Qed.

(** X10. In a fresh store the movies get the keys 1, 2, ..., in the order
    of the scan: no row is left with the blank key, and no two rows share
    one. *)
Theorem fresh_store_keys (ms : list MovieDirInfo) :
  map Movie.ID (movies (saveMovies Parse ms empty_catalog))
    = map N.of_nat (seq 1 (length ms)).
Proof.
  rewrite saveMovies_ids. simpl.
  rewrite <- seq_shift, map_map. apply map_ext. intros i.
  unfold Gorm.next_movie_id. simpl. lia.
Qed.

End Writer.

Lemma has_sep_after_last_sep s : Filepath.has_sep (Filepath.after_last_sep s) = false.
Proof.
  induction s as [|c s IH]; simpl; [reflexivity|].
  destruct (Filepath.has_sep s) eqn:E; [exact IH|].
  destruct (Filepath.IsPathSeparator c) eqn:Ec; [exact E|].
  simpl. now rewrite Ec, E.
Qed.

Lemma Base_shaped p : Ingested.base_shaped (Filepath.Base p).
Proof.
  split; [apply Base_nonempty|].
  unfold Filepath.Base. destruct p as [|c p]; [now left|].
  pose proof (has_sep_after_last_sep (Filepath.strip_trailing_seps (String c p))) as H.
  destruct (Filepath.after_last_sep _); [now right|now left].
Qed.

(** X11. The directory name stored with a movie is never empty and holds
    no path separator, unless it is the root itself: if that is true of
    the rows already in the catalog, it is true of the rows after
    [saveMovies]. *)
Theorem stored_dir_names_are_base_names
    (Parse : string -> TorrentInfo * option string)
    (ms : list MovieDirInfo) (c : Catalog) :
  Forall (fun r => Ingested.base_shaped (Movie.DirName r)) (movies c) ->
  Forall (fun r => Ingested.base_shaped (Movie.DirName r))
    (movies (saveMovies Parse ms c)).
Proof.
  intros Hc. destruct (saveMovies_appends_in_order Parse ms c) as (rows & -> & Hrows).
  simpl. apply Forall_app. split; [exact Hc|].
  induction Hrows as [|e r ms' rows' (_ & Hn & _) _ IH]; constructor; trivial.
  rewrite Hn. apply Base_shaped.
Qed.

Lemma stored_dir_names_are_base_names_witness :
  Forall (fun r => Ingested.base_shaped (Movie.DirName r))
    (movies (saveMovies Sample.Parse (fst Sample.scan) empty_catalog)).
Proof.
  apply stored_dir_names_are_base_names. constructor.
Defined.

(** ** More on the duplicate-directory pass *)

Lemma Forall2_map_In {A B : Type} (R : A -> B -> Prop) (g : A -> B) (l : list A) :
  (forall x, In x l -> R x (g x)) -> Forall2 R l (map g l).
Proof.
  induction l as [|a l IH]; intros H; simpl; constructor.
  - apply H. now left.
  - apply IH. intros x Hx. apply H. now right.
Qed.


Lemma hit_by_groups_perm gs gs' rows i :
  Permutation gs gs' ->
  Detect.hit_by_groups gs rows i = Detect.hit_by_groups gs' rows i.
Proof.
  intros Hp. unfold Detect.hit_by_groups.
  destruct (existsb _ gs') eqn:E.
  - apply existsb_exists in E as (g & Hg & H). apply existsb_exists. exists g.
    split; [|exact H].
    apply list_elem_of_In. rewrite Hp. now apply list_elem_of_In.
  - destruct (existsb _ gs) eqn:E'; [|reflexivity].
    apply existsb_exists in E' as (g & Hg & H).
    assert (existsb (fun g => Detect.hit_by (Gorm.Where (Detect.dir_query g) rows) i) gs' = true).
    { apply existsb_exists. exists g. split; [|exact H].
      apply list_elem_of_In. rewrite <- Hp. now apply list_elem_of_In. }
    congruence.
Qed.

(** X13. The order in which the grouped query returns its rows does not
    matter: the outer loop of the pass run over any rearrangement of
    [movieGroups] leaves the same table. *)
Theorem group_order_is_irrelevant (gs gs' rows : list Movie.t) :
  Permutation gs gs' ->
  fold_left flag_group gs' rows = fold_left flag_group gs rows.
Proof.
  intros Hp. rewrite !fold_flag_group. apply mark_ext. intros i.
  symmetry. now apply hit_by_groups_perm.
Qed.

Lemma group_order_is_irrelevant_witness :
  fold_left flag_group (rev (Gorm.duplicate_dirs Scenario.two_series)) Scenario.two_series
    = movies (detectGroups (mkCatalog Scenario.two_series [])).
Proof.
  apply (group_order_is_irrelevant (Gorm.duplicate_dirs Scenario.two_series)).
  apply Permutation_rev.
Defined.

Lemma map_lookup {A B : Type} (g : A -> B) (l : list A) (i : nat) :
  map g l !! i = option_map g (l !! i).
Proof. revert i. induction l as [|a l IH]; intros [|i]; simpl; auto. Qed.

Lemma distinct_dirs_no_groups rows :
  NoDup (map Ingested.dir_of rows) -> Gorm.duplicate_dirs rows = [].
Proof.
  intros Hnd. destruct (Gorm.duplicate_dirs rows) as [|g gs] eqn:E; [reflexivity|].
  exfalso.
  assert (Hg : In g (Gorm.duplicate_dirs rows)) by (rewrite E; now left).
  apply duplicate_dirs_In in Hg as (r & _ & _ & Hc).
  apply count_dir_two in Hc as (i & j & r1 & r2 & Hne & Hi & Hj & H1 & H2 & H3 & H4).
  apply Hne. eapply NoDup_lookup; [exact Hnd| |].
  - rewrite map_lookup, Hi. reflexivity.
  - rewrite map_lookup, Hj. simpl. unfold Ingested.dir_of. congruence.
Qed.

(** X14. When no two movies lie in the same directory (the empty catalog
    included), the pass changes nothing at all. *)
Theorem detectGroups_without_shared_directories (c : Catalog) :
  NoDup (map Ingested.dir_of (movies c)) -> detectGroups c = c.
Proof.
  intros Hnd. unfold detectGroups. rewrite distinct_dirs_no_groups by trivial.
  now destruct c.
Qed.

Lemma detectGroups_without_shared_directories_witness :
  detectGroups (mkCatalog Scenario.two_films []) = mkCatalog Scenario.two_films [].
Proof.
  apply detectGroups_without_shared_directories. compute_done.
Defined.

(** X15. On any table whose keys are set and distinct and whose directory
    names and paths are not empty, whatever its flags were before: a row
    that shares its directory (name and path) with a row at another
    position comes out with its flag set, and every other row comes out
    exactly as it was. *)
Theorem detectGroups_on_keyed_table (c : Catalog) :
  Detect.well_keyed (movies c) ->
  Forall2 (fun r r' =>
             (Detect.two_in_dir_of r (movies c) -> r' = Detect.flagged r) /\
             (~ Detect.two_in_dir_of r (movies c) -> r' = r))
    (movies c) (movies (detectGroups c)).
Proof.
  intros Hwk. rewrite detectGroups_mark. unfold Detect.mark.
  apply Forall2_map_In. intros r Hr.
  pose proof (hit_iff_shared (movies c) r Hwk Hr) as Hhit.
  rewrite count_dir_two in Hhit.
  destruct (Detect.hit_by_groups _ _ _).
  - split; [reflexivity|]. intros Hn. exfalso. apply Hn. now apply Hhit.
  - split; [|reflexivity]. intros H. apply Hhit in H. discriminate.
Qed.

Lemma detectGroups_on_keyed_table_witness :
  Forall2 (fun r r' =>
             (Detect.two_in_dir_of r Scenario.two_series -> r' = Detect.flagged r) /\
             (~ Detect.two_in_dir_of r Scenario.two_series -> r' = r))
    Scenario.two_series
    (movies (detectGroups (mkCatalog Scenario.two_series []))).
Proof.
  apply (detectGroups_on_keyed_table (mkCatalog Scenario.two_series [])).
  split; simpl.
  - compute_done.
  - repeat constructor; discriminate.
Defined.

(** ** The set-up of [main], outcome by outcome *)

Lemma length_zero_empty (s : string) : Nat.eqb (String.length s) 0 = true <-> s = "".
Proof. destruct s; simpl; split; congruence. Qed.

(** X16. When [main] gets as far as building the server, every check has
    passed ([-path] given, ffmpeg found, a key that is not blank, the
    store opened, the scan done), and the configuration carries the port
    (1818 unless given), the working directory, the store path and the
    key exactly as typed, not trimmed. *)
Theorem setup_success_means_all_checks_passed (w : World)
    (P : string -> TorrentInfo * option string) (T : string -> string)
    (cl : CommandLine) (fs fs' : FS) (cfg : ServerConfig) :
  main_setup w P T cl fs = Running cfg fs' ->
  default "" (opt_path cl) <> "" /\
  checkFfmpegInstalled w = true /\
  T (default "" (opt_tmdb_key cl)) <> "" /\
  OpenDB_error w (getDBPath w) = None /\
  (exists found, ScanDir w (default "" (opt_path cl)) = Ok found) /\
  Port cfg = default 1818%Z (opt_port cl) /\
  TMDBApiKey cfg = default "" (opt_tmdb_key cl) /\
  AppDir cfg = getAppDir w /\
  DB cfg = getDBPath w.
Proof.
  intros H. pose proof (main_setup_Running _ _ _ _ _ _ _ H) as (ms & ss & Hs & -> & _).
  unfold main_setup in H.
  destruct (Nat.eqb (String.length (default "" (opt_path cl))) 0) eqn:E1.
  { unfold mbind, Proc_bind, cleanup, panic in H.
    destruct (Os.RemoveAll _ _ _); discriminate. }
  destruct (checkFfmpegInstalled w) eqn:E2; [|discriminate].
  simpl in H.
  destruct (Nat.eqb (String.length (T _)) 0) eqn:E3.
  { unfold mbind, Proc_bind, cleanup, panic in H.
    destruct (Os.RemoveAll _ _ _); discriminate. }
  destruct (OpenDB_error _ _) eqn:E4.
  { unfold mbind, Proc_bind, cleanup, panic in H.
    destruct (Os.RemoveAll _ _ _); discriminate. }
  repeat split; eauto.
  - intros Hp. apply length_zero_empty in Hp. congruence.
  - intros Hk. apply length_zero_empty in Hk. congruence.
Qed.

Lemma setup_success_means_all_checks_passed_witness :
  exists cfg fs',
    main_setup Sample.world Sample.Parse Sample.TrimSpace Scenario.args_padded_key ∅
      = Running cfg fs' /\
    TMDBApiKey cfg = "  k3y ".
Proof.
  eexists _, _. split; [vm_compute; reflexivity|].
  refine (proj1 (proj2 (proj2 (proj2 (proj2 (proj2 (proj2
            (setup_success_means_all_checks_passed Sample.world Sample.Parse
               Sample.TrimSpace Scenario.args_padded_key ∅ _ _ _)))))))).
  vm_compute; reflexivity.
Defined.

(** X17. The set-up aborts with a panic only, never with an exit code, in
    one of five ways, tried in this order: no [-path]; no ffmpeg; a blank
    key; the store cannot be opened; the scan fails. The message says
    which, with the error text appended for the last two. In the ffmpeg
    case the file system is left as it is; in the others it is what
    [cleanup] leaves. No row is written in any of them. *)
Theorem setup_aborts_in_order (w : World)
    (P : string -> TorrentInfo * option string) (T : string -> string)
    (cl : CommandLine) (fs fs' : FS) (e : Exit) :
  main_setup w P T cl fs = Halted e fs' ->
  let path := default "" (opt_path cl) in
  let key := default "" (opt_tmdb_key cl) in
  (path = "" /\ e = Panic "No movie path directory provided, exited" /\
   cleanup w fs = Running tt fs') \/
  (path <> "" /\ checkFfmpegInstalled w = false /\
   e = Panic "sorry, you haven't install ffmpeg, INSTALL FFMPEG first!" /\ fs' = fs) \/
  (path <> "" /\ checkFfmpegInstalled w = true /\ T key = "" /\
   e = Panic "No TMDB Api Key provided, exited" /\ cleanup w fs = Running tt fs') \/
  (path <> "" /\ checkFfmpegInstalled w = true /\ T key <> "" /\
   exists err, OpenDB_error w (getDBPath w) = Some err /\
               e = Panic ("Unable to create DB connection:" ++ err) /\
               cleanup w fs = Running tt fs') \/
  (path <> "" /\ checkFfmpegInstalled w = true /\ T key <> "" /\
   OpenDB_error w (getDBPath w) = None /\
   exists err, ScanDir w path = Err err /\
               e = Panic ("Error while scanning movies " ++ err) /\
               cleanup w fs = Running tt fs').
Proof.
  assert (Hc : forall msg, (cleanup w ≫= fun _ => panic (A:=ServerConfig) msg) fs = Halted e fs' ->
                           e = Panic msg /\ cleanup w fs = Running tt fs').
  { intros msg. unfold mbind, Proc_bind, cleanup, panic.
    destruct (Os.RemoveAll _ _ _); now intros [= <- <-]. }
  intros H. simpl. unfold main_setup in H.
  destruct (Nat.eqb (String.length (default "" (opt_path cl))) 0) eqn:E1.
  { apply Hc in H as [-> H]. apply length_zero_empty in E1. now left. }
  assert (Hp : default "" (opt_path cl) <> "").
  { intros Hp. apply length_zero_empty in Hp. congruence. }
  right.
  destruct (checkFfmpegInstalled w) eqn:E2; simpl in H.
  2:{ unfold panic in H. injection H as <- <-. left. now repeat split. }
  right.
  destruct (Nat.eqb (String.length (T _)) 0) eqn:E3.
  { apply Hc in H as [-> H]. apply length_zero_empty in E3. left. now repeat split. }
  assert (Hk : T (default "" (opt_tmdb_key cl)) <> "").
  { intros Hk. apply length_zero_empty in Hk. congruence. }
  right.
  destruct (OpenDB_error _ _) as [err|] eqn:E4.
  { apply Hc in H as [-> H]. left. repeat split; trivial. exists err. now repeat split. }
  right.
  destruct (ScanDir _ _) as [[ms ss]|err] eqn:E5; [discriminate|].
  apply Hc in H as [-> H]. repeat split; trivial. exists err. now repeat split.
Qed.

Lemma setup_aborts_in_order_witness :
  main_setup Scenario.world_scan_fails Sample.Parse Sample.TrimSpace Sample.args
    Sample.fs_with_old_store
    = Halted (Panic "Error while scanning movies permission denied")
        (final_fs (cleanup Scenario.world_scan_fails Sample.fs_with_old_store)) /\
  cleanup Scenario.world_scan_fails Sample.fs_with_old_store
    = Running tt (final_fs (cleanup Scenario.world_scan_fails Sample.fs_with_old_store)).
Proof.
  assert (Hrun : main_setup Scenario.world_scan_fails Sample.Parse Sample.TrimSpace
                   Sample.args Sample.fs_with_old_store
                 = Halted (Panic "Error while scanning movies permission denied")
                     (final_fs (cleanup Scenario.world_scan_fails Sample.fs_with_old_store)))
    by (vm_compute; reflexivity).
  split; [exact Hrun|].
  destruct (setup_aborts_in_order _ _ _ _ _ _ _ Hrun)
    as [(H & _)|[(_ & H & _)|[(_ & _ & H & _)|[(_ & _ & _ & err & H & _)
       |(_ & _ & _ & _ & err & _ & _ & H)]]]];
    try (vm_compute in H; discriminate H).
  exact H.
Defined.

(** ** More on serving and shutdown *)

Section WatchFacts.

Import Lifecycle Progress Watch.

Variable w : World.
Variable serverPort : Z.
Variable f : FS.

Lemma count_app P tr evs : count P (tr ++ evs) = count P tr + count P evs.
Proof. unfold count. now rewrite List.filter_app, length_app. Qed.

Lemma Inv2_start : Inv2 (start f).
Proof.
  constructor; simpl; try reflexivity; try lia; try tauto;
    try (intros; apply preceded_by_nil).
  - unfold interrupted. simpl. intros [H|H]; [discriminate|lia].
Qed.

Ltac seen_old H := apply in_or_app; left; apply H; lia.
Ltac seen_new := apply in_or_app; right; simpl; solve [auto 6].
Ltac order_step H :=
  apply preceded_by_app; [apply H|];
  simpl; intros Hin;
  repeat (destruct Hin as [Hin|Hin]; try discriminate Hin); try contradiction.

Lemma Inv2_step s l s' :
  Inv w f s -> Inv2 s -> step w serverPort l s = Some s' -> Inv2 s'.
Proof.
  intros HI HJ Hs. destruct s as [m k cs sh fs0 tr].
  destruct HI as [I1 _ _ I4 I5 _ _ _ _ I10 _ _ _ _ _ _ _ _ _].
  destruct HJ as [J1 J2 J3 J4 J5 J6 J7 P1 P2 P3].
  unfold interrupted in *.
  simpl in *. unfold step, main_step, watcher_step, emit in Hs. simpl in Hs.
  repeat match type of Hs with
         | context [match ?x with _ => _ end] =>
             destruct x eqn:?; simpl in Hs; try discriminate Hs
         end;
    injection Hs as <-; simpl in *.
  all: constructor; unfold interrupted; simpl.
  all: try solve [rewrite count_app; first [rewrite J5|rewrite J6|rewrite J7];
                  unfold count; simpl; first [reflexivity|lia]].
  all: try solve [intros ?; first [lia | seen_old J4 | seen_new]].
  all: try solve [intros ?; first
            [ lia
            | destruct J3 as [e' He']; [lia|]; exists e'; apply in_or_app; left; exact He'
            | eexists; seen_new ]].
  all: try solve [intros H; first
            [ seen_new
            | apply in_or_app; left; apply J1;
              first [ left; reflexivity
                    | right; lia
                    | destruct H as [H|H]; [left; exact H|right; lia] ]
            | exfalso; destruct H as [H|H]; [discriminate|lia] ]].
  all: try solve [intros H; apply in_app_or in H as [H|H];
            [ apply J2 in H; destruct H as [H|H]; first [now left | right; lia | discriminate H | left; exact H]
            | first [now left | right; lia | simpl in H; intuition discriminate] ]].
  all: try solve [intros p; order_step (P1 p);
                  (destruct J3 as [e' He']; [lia|]; exists (EvServeReturned e');
                   (split; [exact He'|eexists; reflexivity]))].
  all: try solve [order_step P2; first
            [ exists (EvShutdownCalled (Second * 30));
              (split; [apply I4; first [lia | apply I5; reflexivity]|eexists; reflexivity])
            | exfalso; injection Hin as Hin; subst;
              match goal with
              | E : _ || String.eqb _ _ = false |- _ =>
                  rewrite String.eqb_refl, orb_true_r in E; discriminate E
              end ]].
  all: try solve [intros d; order_step (P3 d); exists (EvSetKeepAlivesEnabled false);
                  (split; [apply J4; lia|reflexivity])].
Qed.


Lemma reachable_Inv2 s : reachable w serverPort f s -> Inv2 s.
Proof.
  induction 1 as [|s l s' Hr IH Hs]; [apply Inv2_start|].
  eapply Inv2_step; eauto. exact (reachable_Inv w serverPort f s Hr).
Qed.

(** With an interrupt waiting or taken, the threads stop only when [main]
    has returned. *)
Lemma interrupted_stops_at_exit s :
  Inv w f s -> interrupted s -> can_move w serverPort s = false -> mpc s = MExit.
Proof.
  intros HI Hint. destruct s as [m k cs sh fs0 tr].
  destruct HI as [I1 _ _ _ I5 _ _ _ _ I10 _ _ _ _ _ _ _ _ _].
  unfold interrupted in Hint. simpl in *.
  unfold can_move, step, main_step, watcher_step, emit. simpl.
  destruct Hint as [->|Hint];
    destruct m, k; simpl in *; try lia; try reflexivity; try discriminate.
  all: destruct sh; simpl; try discriminate.
  all: intros _; exfalso; assert (false = true) by (apply I5; lia); discriminate.
Qed.

End WatchFacts.


(** X18. Without an interrupt nothing is torn down: in every reachable
    state whose history holds no interrupt, [Shutdown] has not been
    called, [main] has not passed its wait on [serverDone], and the file
    system is the one serving started with. This holds also when
    [ListenAndServe] has come back with an error. *)
Theorem no_teardown_without_interrupt
    (w : World) (serverPort : Z) (f : FS) (s : Lifecycle.State) :
  Lifecycle.reachable w serverPort f s ->
  ~ In Lifecycle.EvInterrupt (Lifecycle.trace s) ->
  Progress.mrank (Lifecycle.mpc s) <= 7 /\
  Lifecycle.fs s = f /\
  Watch.count Watch.is_shutdown_call (Lifecycle.trace s) = 0 /\
  Watch.count Watch.is_removal (Lifecycle.trace s) = 0.
Proof.
  intros Hr Hno.
  pose proof (reachable_Inv _ _ _ _ Hr) as HI.
  pose proof (reachable_Inv2 _ _ _ _ Hr) as HJ.
  assert (Hk : Progress.wrank (Lifecycle.wpc s) <= 1).
  { destruct (le_lt_dec (Progress.wrank (Lifecycle.wpc s)) 1) as [H|H]; [exact H|].
    exfalso. apply Hno. apply (Watch.w_interrupted_in _ HJ). right. lia. }
  pose proof (Progress.inv_handoff _ _ _ HI) as Hh.
  assert (Hm : Progress.mrank (Lifecycle.mpc s) <= 7) by lia.
  repeat split; trivial.
  - apply (Progress.inv_fs _ _ _ HI). lia.
  - rewrite (Watch.w_calls _ HJ).
    destruct (Nat.leb_spec 6 (Progress.wrank (Lifecycle.wpc s))); [lia|reflexivity].
  - rewrite (Watch.w_removals _ HJ).
    destruct (Nat.leb_spec 9 (Progress.mrank (Lifecycle.mpc s))); [lia|reflexivity].
Qed.

Lemma no_teardown_without_interrupt_witness :
  Lifecycle.fs Runs.failed_to_serve = Sample.fs_with_old_store /\
  Lifecycle.mpc Runs.failed_to_serve = Lifecycle.MWaitDone.
Proof.
  split; [|reflexivity].
  refine (proj1 (proj2 (no_teardown_without_interrupt Sample.world 1818
                          Sample.fs_with_old_store Runs.failed_to_serve _ _))).
  - apply (run_reachable Sample.world 1818 Sample.fs_with_old_store Runs.serve_fails
             (Lifecycle.start Sample.fs_with_old_store)); [constructor|reflexivity].
  - simpl. intuition discriminate.
Defined.

(** X19. A server that cannot start does not end the process. When
    [ListenAndServe] returns an error other than "server closed" before
    any interrupt, [main] logs "Unable to start server on port" and then
    waits on [serverDone]: no thread can move until an interrupt comes,
    and the working directory stays. *)
Theorem failed_server_waits_for_interrupt
    (w : World) (serverPort : Z) (f : FS) (s : Lifecycle.State) (e : string) :
  Lifecycle.reachable w serverPort f s ->
  Lifecycle.mpc s = Lifecycle.MServing ->
  ~ In Lifecycle.EvInterrupt (Lifecycle.trace s) ->
  e <> Lifecycle.ErrServerClosed ->
  exists s1 s2,
    Lifecycle.step w serverPort (Lifecycle.ServeError e) s = Some s1 /\
    Lifecycle.step w serverPort Lifecycle.Main s1 = Some s2 /\
    Lifecycle.trace s2
      = (Lifecycle.trace s
         ++ [Lifecycle.EvServeReturned e;
             Lifecycle.EvLog Lifecycle.Error "Unable to start server on port"])%list /\
    Lifecycle.mpc s2 = Lifecycle.MWaitDone /\
    Lifecycle.can_move w serverPort s2 = false /\
    Lifecycle.fs s2 = f.
Proof.
  intros Hr Hm Hno He.
  pose proof (reachable_Inv _ _ _ _ Hr) as HI.
  pose proof (reachable_Inv2 _ _ _ _ Hr) as HJ.
  destruct s as [m k cs sh fs0 tr]. simpl in *. subst m.
  assert (Hcs : cs = false).
  { destruct cs; [|reflexivity]. exfalso. apply Hno.
    apply (Watch.w_interrupted_in _ HJ). now left. }
  assert (Hk : k = Lifecycle.WRecvSignal).
  { pose proof (Progress.inv_spawn _ _ _ HI) as H1. simpl in H1.
    destruct k; simpl in H1; try lia; try reflexivity;
      exfalso; apply Hno; apply (Watch.w_interrupted_in _ HJ); right; simpl; lia. }
  assert (Hsh : sh = false).
  { destruct sh; [|reflexivity].
    pose proof (proj1 (Progress.inv_inShutdown _ _ _ HI) eq_refl) as H. subst k.
    simpl in H. lia. }
  subst cs k sh.
  assert (Hfs : fs0 = f) by (apply (Progress.inv_fs _ _ _ HI); simpl; lia).
  apply String.eqb_neq in He.
  eexists _, _. unfold Lifecycle.step. simpl. rewrite He. simpl.
  split; [reflexivity|]. split; [reflexivity|]. simpl.
  rewrite <- app_assoc. repeat split. exact Hfs.
Qed.

Lemma failed_server_waits_for_interrupt_witness :
  Lifecycle.run Sample.world 1818
    [Lifecycle.ServeError "listen tcp :1818: bind: address already in use"; Lifecycle.Main]
    Runs.serving = Some Runs.failed_to_serve /\
  Lifecycle.can_move Sample.world 1818 Runs.failed_to_serve = false.
Proof.
  split; [reflexivity|].
  destruct (failed_server_waits_for_interrupt Sample.world 1818 Sample.fs_with_old_store
              Runs.serving "listen tcp :1818: bind: address already in use")
    as (s1 & s2 & H1 & H2 & _ & _ & Hstuck & _).
  - apply (run_reachable Sample.world 1818 Sample.fs_with_old_store Runs.until_serving
             (Lifecycle.start Sample.fs_with_old_store)); [constructor|reflexivity].
  - reflexivity.
  - simpl. intuition discriminate.
  - discriminate.
  - injection H1 as <-. injection H2 as <-. exact Hstuck.
Defined.

(** X20. The working directory is never removed while [ListenAndServe] is
    still running: in every reachable history each removal comes after a
    return of [ListenAndServe]; and a return with "server closed" comes
    only after [Shutdown] was called. *)
Theorem removal_after_server_returned
    (w : World) (serverPort : Z) (f : FS) (s : Lifecycle.State) :
  Lifecycle.reachable w serverPort f s ->
  (forall p, Lifecycle.preceded_by Watch.serve_returned (Lifecycle.EvRemoveAll p)
               (Lifecycle.trace s)) /\
  Lifecycle.preceded_by Progress.shutdown_called
    (Lifecycle.EvServeReturned Lifecycle.ErrServerClosed) (Lifecycle.trace s).
Proof.
  intros Hr. pose proof (reachable_Inv2 _ _ _ _ Hr) as HJ.
  split; [apply (Watch.w_ord_served _ HJ)|apply (Watch.w_ord_closed _ HJ)].
Qed.

Lemma removal_after_server_returned_witness :
  Lifecycle.preceded_by Progress.shutdown_called
    (Lifecycle.EvServeReturned Lifecycle.ErrServerClosed)
    (Lifecycle.trace Sample.stopped_late).
Proof.
  refine (proj2 (removal_after_server_returned Sample.world 1818 Sample.fs_with_old_store
                   Sample.stopped_late _)).
  apply (run_reachable Sample.world 1818 Sample.fs_with_old_store
           (Sample.until_shutdown
            ++ Lifecycle.ShutdownError "context deadline exceeded" :: Sample.after_deadline)
           (Lifecycle.start Sample.fs_with_old_store)); [constructor|reflexivity].
Defined.

(** X21. However many interrupts arrive and however the threads are
    scheduled, [Shutdown] is called at most once, [serverDone] is used at
    most once, and the working directory is removed at most once. *)
Theorem shutdown_and_removal_happen_once
    (w : World) (serverPort : Z) (f : FS) (s : Lifecycle.State) :
  Lifecycle.reachable w serverPort f s ->
  Watch.count Watch.is_shutdown_call (Lifecycle.trace s) <= 1 /\
  Watch.count Watch.is_done (Lifecycle.trace s) <= 1 /\
  Watch.count Watch.is_removal (Lifecycle.trace s) <= 1.
Proof.
  intros Hr. pose proof (reachable_Inv2 _ _ _ _ Hr) as HJ.
  rewrite (Watch.w_calls _ HJ), (Watch.w_dones _ HJ), (Watch.w_removals _ HJ).
  repeat split; destruct (Nat.leb _ _); lia.
Qed.

Lemma shutdown_and_removal_happen_once_witness :
  Watch.count Watch.is_shutdown_call (Lifecycle.trace Runs.stopped_after_three) <= 1.
Proof.
  refine (proj1 (shutdown_and_removal_happen_once Sample.world 1818 ∅
                   Runs.stopped_after_three _)).
  apply (run_reachable Sample.world 1818 ∅ Runs.three_interrupts
           (Lifecycle.start ∅)); [constructor|reflexivity].
Defined.

(** X22. Keep-alives are switched off before the graceful stop is asked
    for: every call of [Shutdown] in a reachable history has a
    [SetKeepAlivesEnabled(false)] before it. *)
Theorem keepalives_off_before_shutdown
    (w : World) (serverPort : Z) (f : FS) (s : Lifecycle.State) (d : Z) :
  Lifecycle.reachable w serverPort f s ->
  Lifecycle.preceded_by (eq (Lifecycle.EvSetKeepAlivesEnabled false))
    (Lifecycle.EvShutdownCalled d) (Lifecycle.trace s).
Proof.
  intros Hr. apply (Watch.w_ord_keepalive _ (reachable_Inv2 _ _ _ _ Hr)).
Qed.

Lemma keepalives_off_before_shutdown_witness :
  Lifecycle.preceded_by (eq (Lifecycle.EvSetKeepAlivesEnabled false))
    (Lifecycle.EvShutdownCalled 30000000000) (Lifecycle.trace Sample.stopping).
Proof.
  apply (keepalives_off_before_shutdown Sample.world 1818 Sample.fs_with_old_store).
  apply (run_reachable Sample.world 1818 Sample.fs_with_old_store Sample.until_shutdown
           (Lifecycle.start Sample.fs_with_old_store)); [constructor|reflexivity].
Defined.

(** X23. One interrupt is enough, wherever it arrives, and whether the
    graceful stop succeeds or not: from a reachable state whose history
    holds an interrupt, every schedule takes at most twenty thread steps,
    and when no thread can move [main] has returned and [cleanup] has run,
    once. *)
Theorem interrupt_leads_to_exit
    (w : World) (serverPort : Z) (f : FS) (s s2 : Lifecycle.State)
    (ls : list Lifecycle.Label) :
  Lifecycle.reachable w serverPort f s ->
  In Lifecycle.EvInterrupt (Lifecycle.trace s) ->
  Lifecycle.run w serverPort ls s = Some s2 ->
  Progress.thread_steps ls <= 20 /\
  (Lifecycle.can_move w serverPort s2 = false ->
   Lifecycle.mpc s2 = Lifecycle.MExit /\
   In (Lifecycle.EvRemoveAll (getAppDir w)) (Lifecycle.trace s2) /\
   Watch.count Watch.is_removal (Lifecycle.trace s2) = 1 /\
   Lifecycle.fs s2 = Lifecycle.after_cleanup w f).
Proof.
  intros Hr Hint Hrun.
  pose proof (run_reachable _ _ _ _ _ _ Hr Hrun) as Hr2.
  pose proof (reachable_Inv _ _ _ _ Hr2) as HI2.
  pose proof (reachable_Inv2 _ _ _ _ Hr2) as HJ2.
  destruct (run_grows _ _ _ _ _ Hrun) as (Htr & _ & Hsteps).
  split.
  { unfold Progress.remaining in Hsteps. lia. }
  intros Hstuck.
  assert (He : Lifecycle.mpc s2 = Lifecycle.MExit).
  { apply (interrupted_stops_at_exit w serverPort f); trivial.
    apply (Watch.w_in_interrupted _ HJ2), Htr, Hint. }
  destruct (Progress.inv_removed _ _ _ HI2) as [Hrm Hfs]; [rewrite He; simpl; lia|].
  repeat split; trivial.
  rewrite (Watch.w_removals _ HJ2), He. reflexivity.
Qed.

Lemma interrupt_leads_to_exit_witness :
  Lifecycle.mpc Sample.stopped = Lifecycle.MExit /\
  Lifecycle.fs Sample.stopped = Lifecycle.after_cleanup Sample.world ∅.
Proof.
  destruct (interrupt_leads_to_exit Sample.world 1818 ∅ Runs.interrupted_early
              Sample.stopped (skipn 2 Sample.early_interrupt)) as (_ & H).
  - apply (run_reachable Sample.world 1818 ∅ (firstn 2 Sample.early_interrupt)
             (Lifecycle.start ∅)); [constructor|reflexivity].
  - simpl. tauto.
  - reflexivity.
  - destruct (H eq_refl) as (Hm & _ & _ & Hfs). split; [exact Hm|exact Hfs].
Defined.
